(** * RooStats::ProfileLikelihoodCalculator

    A shallow embedding of [roofit/roostats/src/ProfileLikelihoodCalculator.cxx]:
    the global-fit cache ([DoReset], [DoGlobalFit]), the interval query
    ([GetInterval]) and the two-fit hypothesis test ([GetHypoTest]).

    - [Double_t] is IEEE binary64, i.e. the kernel's primitive [float].
    - [RooRealVar] objects live in a store indexed by address; a [RooArgSet]
      is a list of addresses, so two sets can share an object.
    - The calculator's methods run in a small state monad whose failure is a
      null-pointer dereference.
    - RooFit itself (fitting, likelihood evaluation) is not part of this
      translation unit and is taken as an interface, [FittingEngine]. *)

From Stdlib Require Import ZArith List String Bool Arith Lia.
From Stdlib Require Import Floats.
From Stdlib Require Import Reals Lra Factorial QArith Qreals.
Import ListNotations.

Close Scope Q_scope.
Close Scope R_scope.

Set Warnings "-inexact-float".

(** ** Doubles *)

Module IEEE.

Definition Double_t := float.

(** [std::max(a, b)] is [(a < b) ? b : a]. *)
Definition std_max (a b : Double_t) : Double_t :=
  if PrimFloat.ltb a b then b else a.

(** A double that is zero or finite, in the representation the float axioms
    speak about. *)
Definition SF_finite (X : spec_float) : bool :=
  match X with
  | S754_zero _ | S754_finite _ _ _ => true
  | _ => false
  end.

(** An infinity or a finite number of sign [s]. *)
Definition has_sign (s : bool) (x : spec_float) : Prop :=
x = S754_infinity s \/ exists m e, x = S754_finite s m e.

End IEEE.
Import IEEE.

(** ** Doubles that are not below zero *)

Module IEEEKind.

(** Not a NaN and not below zero: a zero of either sign, a positive number
    or plus infinity. *)
Definition SF_nonneg (X : spec_float) : bool :=
  match X with
  | S754_zero _ | S754_infinity false | S754_finite false _ _ => true
  | _ => false
  end.

Definition SF_nan (X : spec_float) : bool :=
  match X with
  | S754_nan => true
  | _ => false
  end.

End IEEEKind.

(** ** Objects *)

Definition addr := nat.

(** The mutable attributes of a [RooRealVar]. *)
Record RooRealVar := mkVar {
  getVal : Double_t;
  getError : Double_t;
  isConstant : bool
}.

Definition Heap := addr -> RooRealVar.

Definition upd (h : Heap) (a : addr) (v : RooRealVar) : Heap :=
  fun x => if Nat.eqb x a then v else h x.

(** Modelled from the spec: [RooRealVar::setVal], [setError] and [setConstant]
    are declared outside this file; the spec has them overwrite the value, the
    error and the constant flag of the object. *)
Definition setVal (a : addr) (x : Double_t) (h : Heap) : Heap :=
  upd h a (mkVar x (getError (h a)) (isConstant (h a))).

Definition setError (a : addr) (x : Double_t) (h : Heap) : Heap :=
  upd h a (mkVar (getVal (h a)) x (isConstant (h a))).

Definition setConstant (a : addr) (b : bool) (h : Heap) : Heap :=
  upd h a (mkVar (getVal (h a)) (getError (h a)) b).

(** A collection of pointers to [RooRealVar]s held in the store. *)
Definition RooArgSet := list addr.

(** The final floating parameters a fit result owns (its own copies). *)
Record FitPar := mkFitPar {
  fitName : string;
  fitVal : Double_t;
  fitError : Double_t
}.

Record RooFitResult := mkFit {
  minNll : Double_t;
  floatParsFinal : list FitPar
}.

Inductive RooAbsPdf := Pdf (id : nat).
Inductive RooAbsData := Data (id : nat).

(** ** Name-keyed collections

    [RooAbsCollection::find] returns the first element of that name;
    [RooArgSet::add] refuses an element whose name is already present. *)

Section ArgSet.
Context {A : Type} (name : A -> string).

Definition find (s : list A) (n : string) : option A :=
  List.find (fun x => String.eqb (name x) n) s.

Definition add (s : list A) (x : A) : list A :=
  match find s (name x) with
  | Some _ => s
  | None => s ++ [x]
  end.

Definition addAll (s : list A) (xs : list A) : list A :=
  fold_left add xs s.
End ArgSet.

(** ** The fitting engine *)

Record FitOptions := mkOpts {
  optStrategy : Z;
  optHesse : bool;
  optMinos : option bool;
  optSave : bool;
  optPrintLevel : Z
}.

(** [Constrain(..), Strategy(1), Hesse(kTRUE), Save(kTRUE), PrintLevel(-1)] *)
Definition globalFitOptions : FitOptions := mkOpts 1 true None true (-1).

(** [Constrain(..), Hesse(kFALSE), Strategy(0), Minos(kFALSE), Save(kTRUE),
    PrintLevel(-1)] *)
Definition condFitOptions : FitOptions := mkOpts 0 false (Some false) true (-1).

Record RooProfileLL := mkProfile {
  profPdf : RooAbsPdf;
  profData : RooAbsData;
  profConstrain : RooArgSet;
  profPOI : RooArgSet
}.

(** What the calculator asks of code outside this file.

    - [getParameters pdf data] is [pdf->getParameters] on the data; the code tests
      the pointer it gets for null in one place, so it is an option.
    - [fitTo] is [pdf->fitTo] with its [Constrain(..)] set: it may hand back no
      result, and it moves the parameters it floats, so it maps the store to
      a store.
    - [nllGetVal] is [pdf->createNLL(..)] followed by [nll->getVal()].
    - [profileGetVal] is [profile->getVal()]; it minimises over the nuisance
      parameters, so it writes to the store too.
    - [SignificanceToPValue] is the helper of RooStatsUtils.h. *)
Class FittingEngine := {
  getParameters : RooAbsPdf -> RooAbsData -> option RooArgSet;
  fitTo : RooAbsPdf -> RooAbsData -> RooArgSet -> FitOptions -> Heap ->
          option RooFitResult * Heap;
  nllGetVal : RooAbsPdf -> RooAbsData -> RooArgSet -> Heap -> Double_t;
  profileGetVal : RooProfileLL -> Heap -> Double_t * Heap;
  SignificanceToPValue : Double_t -> Double_t
}.

(** The calls made on the engine, in order. *)
Inductive EngineCall :=
| CallFitTo (pdf : RooAbsPdf) (data : RooAbsData) (constrain : RooArgSet)
            (opts : FitOptions)
| CallCreateNLL (pdf : RooAbsPdf) (data : RooAbsData) (constrain : RooArgSet)
| CallNLLGetVal
| CallCreateProfile (poi : RooArgSet)
| CallProfileGetVal.

Definition isFitTo (opts : FitOptions) (c : EngineCall) : bool :=
  match c with
  | CallFitTo _ _ _ o =>
      Z.eqb (optStrategy o) (optStrategy opts) &&
      Bool.eqb (optHesse o) (optHesse opts)
  | _ => false
  end.

Definition globalFits (l : list EngineCall) : nat :=
  List.length (filter (isFitTo globalFitOptions) l).

Definition condFits (l : list EngineCall) : nat :=
  List.length (filter (isFitTo condFitOptions) l).

(** ** The calculator *)

(** What [CombinedCalculator] holds; none of it is written by a query. *)
Record Calculator := mkCalc {
  GetPdf : option RooAbsPdf;
  GetData : option RooAbsData;
  fPOI : option RooArgSet;
  fNullParams : option RooArgSet;
  fSize : Double_t;
  calcName : string
}.

(** What a query can write: the [mutable] fit cache, the parameters of the
    model, and the engine's call log. *)
Record State := mkState {
  fFitResult : option RooFitResult;
  heap : Heap;
  calls : list EngineCall
}.

(** An element of [bestPOI]: a parameter the fit result owns, or an object of
    the store. *)
Inductive RooAbsArg :=
| FitArg (p : FitPar)
| VarArg (a : addr).

(** What [new LikelihoodInterval(name, profile, &bestPOI)] and
    [SetConfidenceLevel] are given. *)
Record LikelihoodInterval := mkInterval {
  intervalName : string;
  intervalProfile : RooProfileLL;
  intervalBestPOI : list RooAbsArg;
  intervalConfidenceLevel : Double_t
}.

(** What [new HypoTestResult(name, nullPValue, 0)] is given. *)
Record HypoTestResult := mkHTR {
  htrName : string;
  fNullPValue : Double_t;
  fAlternatePValue : Double_t
}.

(** *** The monad: state, and [None] for a dereferenced null pointer *)

Definition M (A : Type) := State -> option (A * State).

Definition ret {A} (a : A) : M A := fun s => Some (a, s).

Definition bind {A B} (c : M A) (k : A -> M B) : M B :=
  fun s => match c s with
           | Some (a, s') => k a s'
           | None => None
           end.

Definition crash {A} : M A := fun _ => None.

Notation "x <- c ;; k" := (bind c (fun x => k))
  (at level 61, c at next level, right associativity).
Notation "c ;;; k" := (bind c (fun _ => k))
  (at level 61, right associativity).

Definition getFitResult : M (option RooFitResult) :=
  fun s => Some (fFitResult s, s).

Definition setFitResult (r : option RooFitResult) : M unit :=
  fun s => Some (tt, mkState r (heap s) (calls s)).

Definition getHeap : M Heap := fun s => Some (heap s, s).

Definition modifyHeap (f : Heap -> Heap) : M unit :=
  fun s => Some (tt, mkState (fFitResult s) (f (heap s)) (calls s)).

Definition logCall (c : EngineCall) : M unit :=
  fun s => Some (tt, mkState (fFitResult s) (heap s) (calls s ++ [c])).

(** [*p] for a pointer that may be null. *)
Definition deref {A} (p : option A) : M A :=
  match p with
  | Some a => ret a
  | None => crash
  end.

(** [GetName] gives each object its name; no code in this file renames an
    object, so the name is a function of the address and not part of the
    mutable store. *)

Section Calculator.
Context (GetName : addr -> string).
Context {engine : FittingEngine}.
Variable calc : Calculator.

Definition argName (x : RooAbsArg) : string :=
  match x with
  | FitArg p => fitName p
  | VarArg a => GetName a
  end.

(** Modelled from the spec: [RemoveConstantParameters] (RooStatsUtils.h)
    is not in this file; the spec has it exclude the parameters marked
    constant. *)
Definition RemoveConstantParameters (h : Heap) (s : RooArgSet) : RooArgSet :=
  filter (fun a => negb (isConstant (h a))) s.

Definition callFitTo (pdf : RooAbsPdf) (data : RooAbsData)
    (constrain : RooArgSet) (opts : FitOptions) : M (option RooFitResult) :=
  fun s =>
    let (r, h') := fitTo pdf data constrain opts (heap s) in
    Some (r, mkState (fFitResult s) h'
                (calls s ++ [CallFitTo pdf data constrain opts])).

Definition callNLLGetVal (pdf : RooAbsPdf) (data : RooAbsData)
    (constrain : RooArgSet) : M Double_t :=
  fun s =>
    Some (nllGetVal pdf data constrain (heap s),
          mkState (fFitResult s) (heap s) (calls s ++ [CallNLLGetVal])).

Definition callProfileGetVal (p : RooProfileLL) : M Double_t :=
  fun s =>
    let (v, h') := profileGetVal p (heap s) in
    Some (v, mkState (fFitResult s) h' (calls s ++ [CallProfileGetVal])).

(** [DoReset]: drop the cached fit result. *)
Definition DoReset : M unit := setFitResult None.

(** [DoGlobalFit] *)
Definition DoGlobalFit : M unit :=
  DoReset ;;;
  match GetData calc, GetPdf calc with
  | Some data, Some pdf =>
      match getParameters pdf data with
      | None => ret tt
      | Some constrainedParams =>
          h <- getHeap ;;
          let constrainedParams := RemoveConstantParameters h constrainedParams in
          fit <- callFitTo pdf data constrainedParams globalFitOptions ;;
          (* fit->Print() *)
          fit <- deref fit ;;
          setFitResult (Some fit)
      end
  | _, _ => ret tt
  end.

(** [if (!fFitResult) DoGlobalFit();] *)
Definition ensureGlobalFit : M unit :=
  cached <- getFitResult ;;
  match cached with
  | None => DoGlobalFit
  | Some _ => ret tt
  end.

(** One turn of the loop over [fitParams] in [GetInterval]. *)
Definition seedPOI (poi : RooArgSet) (h : Heap) (fitPar : FitPar) : Heap :=
  match find GetName poi (fitName fitPar) with
  | Some par => setError par (fitError fitPar) (setVal par (fitVal fitPar) h)
  | None => h
  end.

(** The loop over [fPOI] that fills [bestPOI]. *)
Definition bestPOI (fitParams : list FitPar) (poi : RooArgSet) : list RooAbsArg :=
  let fitParSet := addAll fitName [] fitParams in
  fold_left
    (fun best arg =>
       match find fitName fitParSet (GetName arg) with
       | Some p => add argName best (FitArg p)
       | None => add argName best (VarArg arg)
       end)
    poi [].

(** [GetInterval] *)
Definition GetInterval : M (option LikelihoodInterval) :=
  match GetData calc, GetPdf calc, fPOI calc with
  | Some data, Some pdf, Some poi =>
      (* the pointer is handed to RemoveConstantParameters and dereferenced
         for Constrain(..) without a test *)
      constrainedParams <- deref (getParameters pdf data) ;;
      h <- getHeap ;;
      let constrainedParams := RemoveConstantParameters h constrainedParams in
      logCall (CallCreateNLL pdf data constrainedParams) ;;;
      logCall (CallCreateProfile poi) ;;;
      let profile := mkProfile pdf data constrainedParams poi in
      ensureGlobalFit ;;;
      cached <- getFitResult ;;
      match cached with
      | None => ret None
      | Some fit =>
          let fitParams := floatParsFinal fit in
          modifyHeap (fun h => fold_left (seedPOI poi) fitParams h) ;;;
          _ <- callProfileGetVal profile ;;
          let name := ("LikelihoodInterval_" ++ calcName calc)%string in
          let interval := mkInterval name profile (bestPOI fitParams poi)
                                     (1 - fSize calc)%float in
          ret (Some interval)
      end
  | _, _, _ => ret None
  end.

(** The first loop of [GetHypoTest]: save, overwrite and freeze. *)
Fixpoint freezeNull (constrainedParams : RooArgSet) (poiList : list addr)
    (h : Heap) : list Double_t * Heap :=
  match poiList with
  | [] => ([], h)
  | p :: rest =>
      match find GetName constrainedParams (GetName p) with
      | Some mytarget =>
          let old := getVal (h mytarget) in
          let h := setVal mytarget (getVal (h p)) h in
          let h := setConstant mytarget true h in
          let (olds, h) := freezeNull constrainedParams rest h in
          (old :: olds, h)
      | None =>
          let (olds, h) := freezeNull constrainedParams rest h in
          (0%float :: olds, h)
      end
  end.

(** The last loop of [GetHypoTest]: put the saved values back. *)
Fixpoint restoreNull (constrainedParams : RooArgSet) (poiList : list addr)
    (oldValues : list Double_t) (h : Heap) : Heap :=
  match poiList, oldValues with
  | p :: rest, old :: olds =>
      match find GetName constrainedParams (GetName p) with
      | Some mytarget =>
          restoreNull constrainedParams rest olds
            (setConstant mytarget false (setVal mytarget old h))
      | None => restoreNull constrainedParams rest olds h
      end
  | _, _ => h
  end.

Definition existVarParams (h : Heap) (constrainedParams : RooArgSet) : bool :=
  let nuisParams := RemoveConstantParameters h constrainedParams in
  existsb (fun myarg => negb (isConstant (h myarg))) nuisParams.

Definition deltaNLL (NLLatCondMLE NLLatMLE : Double_t) : Double_t :=
  std_max (NLLatCondMLE - NLLatMLE)%float 0%float.

(** The argument handed to [SignificanceToPValue]. *)
Definition testStatistic (NLLatCondMLE NLLatMLE : Double_t) : Double_t :=
  PrimFloat.sqrt (2 * deltaNLL NLLatCondMLE NLLatMLE)%float.

Definition pValue (NLLatCondMLE NLLatMLE : Double_t) : Double_t :=
  SignificanceToPValue (testStatistic NLLatCondMLE NLLatMLE).

(** [GetHypoTest] from [pdf->getParameters] on, where the fit result is known
    to exist. *)
Definition hypoTestBody (pdf : RooAbsPdf) (data : RooAbsData)
    (nullParams : RooArgSet) : M (option HypoTestResult) :=
  constrainedParams <- deref (getParameters pdf data) ;;
  h <- getHeap ;;
  let constrainedParams := RemoveConstantParameters h constrainedParams in
  ensureGlobalFit ;;;
  (* fFitResult->minNll() *)
  fit <- getFitResult ;;
  fit <- deref fit ;;
  let NLLatMLE := minNll fit in
  let poiList := nullParams in
  h <- getHeap ;;
  let (oldValues, h) := freezeNull constrainedParams poiList h in
  modifyHeap (fun _ => h) ;;;
  NLLatCondMLE <-
    (if existVarParams h constrainedParams then
       fit2 <- callFitTo pdf data constrainedParams condFitOptions ;;
       (* fit2->minNll() *)
       fit2 <- deref fit2 ;;
       ret (minNll fit2)
     else
       logCall (CallCreateNLL pdf data constrainedParams) ;;;
       callNLLGetVal pdf data constrainedParams) ;;
  let name := ("ProfileLRHypoTestResult_" ++ calcName calc)%string in
  let htr := mkHTR name (pValue NLLatCondMLE NLLatMLE) 0%float in
  modifyHeap (restoreNull constrainedParams poiList oldValues) ;;;
  ret (Some htr).

(** [GetHypoTest] *)
Definition GetHypoTest : M (option HypoTestResult) :=
  match GetData calc, GetPdf calc with
  | Some data, Some pdf =>
      match fNullParams calc with
      | None => ret None
      | Some nullParams =>
          ensureGlobalFit ;;;
          cached <- getFitResult ;;
          match cached with
          | None => ret None
          | Some _ => hypoTestBody pdf data nullParams
          end
      end
  | _, _ => ret None
  end.

(** A query on the calculator, and what it hands back. *)
Inductive Query := AskInterval | AskHypoTest.

Definition Answer := option (LikelihoodInterval + HypoTestResult).

Definition runQuery (q : Query) : M Answer :=
  match q with
  | AskInterval => r <- GetInterval ;; ret (option_map inl r)
  | AskHypoTest => r <- GetHypoTest ;; ret (option_map inr r)
  end.

End Calculator.

(** ** What a returning call has done

    The runs of [ensureGlobalFit], [GetInterval] and [GetHypoTest] that
    return, as relations between the state before and the state after. *)

Section Runs.
Context (GetName : addr -> string) {engine : FittingEngine} (calc : Calculator).

(** The conditional NLL as [GetHypoTest] obtains it from the frozen store:
    the minimum of a conditional fit, or the likelihood evaluated as it
    stands when nothing is left to fit. *)
Definition conditionalNLL (pdf : RooAbsPdf) (data : RooAbsData)
    (cp : RooArgSet) (hf : Heap) : option Double_t :=
  if existVarParams hf cp
  then option_map minNll (fst (fitTo pdf data cp condFitOptions hf))
  else Some (nllGetVal pdf data cp hf).

(** The entry of [bestPOI] for the parameter of interest [arg]. *)
Definition bestFitOf (fitParams : list FitPar) (arg : addr) : RooAbsArg :=
  match find fitName fitParams (GetName arg) with
  | Some p => FitArg p
  | None => VarArg arg
  end.

(** What [if (!fFitResult) DoGlobalFit();] can do when it returns. *)
Inductive ensured (s : State) : State -> Prop :=
| ensured_cached fit :
    fFitResult s = Some fit -> ensured s s
| ensured_fitted data pdf cp0 fit h' :
    fFitResult s = None ->
    GetData calc = Some data -> GetPdf calc = Some pdf ->
    getParameters pdf data = Some cp0 ->
    fitTo pdf data (RemoveConstantParameters (heap s) cp0) globalFitOptions (heap s)
      = (Some fit, h') ->
    ensured s (mkState (Some fit) h'
                 (calls s ++ [CallFitTo pdf data
                                (RemoveConstantParameters (heap s) cp0)
                                globalFitOptions]))
| ensured_skipped :
    fFitResult s = None ->
    (GetData calc = None \/ GetPdf calc = None \/
     exists data pdf, GetData calc = Some data /\ GetPdf calc = Some pdf /\
                      getParameters pdf data = None) ->
    ensured s s.

(** The runs of [GetInterval] that return. *)
Inductive interval_run (s : State) : option LikelihoodInterval -> State -> Prop :=
| interval_missing :
    GetData calc = None \/ GetPdf calc = None \/ fPOI calc = None ->
    interval_run s None s
| interval_built data pdf poi cp0 s1 fit v h2 :
    GetData calc = Some data -> GetPdf calc = Some pdf -> fPOI calc = Some poi ->
    getParameters pdf data = Some cp0 ->
    let cp := RemoveConstantParameters (heap s) cp0 in
    ensureGlobalFit calc
      (mkState (fFitResult s) (heap s)
         (calls s ++ [CallCreateNLL pdf data cp] ++ [CallCreateProfile poi]))
      = Some (tt, s1) ->
    fFitResult s1 = Some fit ->
    profileGetVal (mkProfile pdf data cp poi)
      (fold_left (seedPOI GetName poi) (floatParsFinal fit) (heap s1)) = (v, h2) ->
    interval_run s
      (Some (mkInterval ("LikelihoodInterval_" ++ calcName calc)
               (mkProfile pdf data cp poi)
               (bestPOI GetName (floatParsFinal fit) poi)
               (1 - fSize calc)%float))
      (mkState (Some fit) h2 (calls s1 ++ [CallProfileGetVal])).

(** The conditional step of [GetHypoTest]: a fit when a parameter is left
    free, a plain evaluation of the likelihood otherwise. *)
Inductive cond_step (pdf : RooAbsPdf) (data : RooAbsData) (cp : RooArgSet)
    (hf : Heap) : Double_t -> Heap -> list EngineCall -> Prop :=
| cond_fit fit2 h3 :
    existVarParams hf cp = true ->
    fitTo pdf data cp condFitOptions hf = (Some fit2, h3) ->
    cond_step pdf data cp hf (minNll fit2) h3 [CallFitTo pdf data cp condFitOptions]
| cond_eval :
    existVarParams hf cp = false ->
    cond_step pdf data cp hf (nllGetVal pdf data cp hf) hf
      [CallCreateNLL pdf data cp; CallNLLGetVal].

(** The runs of [GetHypoTest] that return. *)
Inductive hypotest_run (s : State) : option HypoTestResult -> State -> Prop :=
| hypotest_missing :
    GetData calc = None \/ GetPdf calc = None \/ fNullParams calc = None ->
    hypotest_run s None s
| hypotest_nofit data pdf :
    GetData calc = Some data -> GetPdf calc = Some pdf ->
    fFitResult s = None -> getParameters pdf data = None ->
    hypotest_run s None s
| hypotest_done data pdf nullParams cp0 s1 fit olds hf cond h3 newcalls :
    GetData calc = Some data -> GetPdf calc = Some pdf ->
    fNullParams calc = Some nullParams ->
    ensureGlobalFit calc s = Some (tt, s1) -> fFitResult s1 = Some fit ->
    getParameters pdf data = Some cp0 ->
    let cp := RemoveConstantParameters (heap s1) cp0 in
    freezeNull GetName cp nullParams (heap s1) = (olds, hf) ->
    cond_step pdf data cp hf cond h3 newcalls ->
    hypotest_run s
      (Some (mkHTR ("ProfileLRHypoTestResult_" ++ calcName calc)
                   (pValue cond (minNll fit)) 0%float))
      (mkState (Some fit) (restoreNull GetName cp nullParams olds h3)
               (calls s1 ++ newcalls)).

(** What a returning query does to the cache and to the count of
    unconditional fits. *)
Definition query_effect {A} (s : State) (r : option A) (s' : State) : Prop :=
  (r = None -> s' = s) /\
  (r <> None -> fFitResult s' <> None) /\
  (forall fit, fFitResult s = Some fit ->
     fFitResult s' = Some fit /\ globalFits (calls s') = globalFits (calls s)) /\
  (fFitResult s = None -> r <> None ->
     globalFits (calls s') = globalFits (calls s) + 1).

End Runs.

(** ** Construction from a [ModelConfig]

    The constructor that takes a [ModelConfig] multiplies the model by the
    prior, when the configuration carries one, and writes the product back
    into the configuration of the caller. *)

Module Construction.

(** A pdf as the constructor handles it: a pdf of the workspace, known by
    its name, or a [RooProdPdf(name, title, pdf1, pdf2)]. *)
Inductive PdfTerm :=
| WorkspacePdf (name : string)
| RooProdPdf (name title : string) (pdf1 pdf2 : PdfTerm).

Definition GetName (p : PdfTerm) : string :=
  match p with
  | WorkspacePdf name => name
  | RooProdPdf name _ _ _ => name
  end.

Record ModelConfig := mkModel {
  GetPdf : option PdfTerm;
  GetPriorPdf : option PdfTerm
}.

(** Modelled from the spec: [ModelConfig::SetPdf] is declared outside this
    file; the spec has the composite installed back into the configuration,
    so it is what [GetPdf] hands back from then on. *)
Definition SetPdf (pdf : PdfTerm) (model : ModelConfig) : ModelConfig :=
  mkModel (Some pdf) (GetPriorPdf model).

(** The members the constructor initialises. *)
Record Members := mkMembers {
  fPdf : option PdfTerm;
  fFitResult : option RooFitResult
}.

(** [ProfileLikelihoodCalculator(data, model, size)].  The constructor of
    [CombinedCalculator] runs first and is not part of this file: [combined]
    is the [fPdf] it leaves.  A failed [assert] ends the program. *)
Definition ProfileLikelihoodCalculator (model : ModelConfig)
    (combined : option PdfTerm) : option (Members * ModelConfig) :=
  match GetPdf model with
  | None => None
  | Some pdf =>
      match GetPriorPdf model with
      | Some prior =>
          let name :=
            ((("Costrained_" ++ GetName pdf) ++ "_with_") ++ GetName prior)%string in
          let fPdf := RooProdPdf name name pdf prior in
          Some (mkMembers (Some fPdf) None, SetPdf fPdf model)
      | None => Some (mkMembers combined None, model)
      end
  end.

End Construction.

(** ** A small workspace to run the calculator on

    Three objects: the model's [mu] (address 0) and [sigma] (address 1), and
    a snapshot of [mu] (address 2) that carries the null hypothesis [mu = 0].
    The engines below leave [SignificanceToPValue] as the identity, so that
    a p-value shows the statistic it was computed from. *)

Module Demo.

Definition GetName (a : addr) : string :=
  match a with
  | 0 => "mu"
  | 1 => "sigma"
  | 2 => "mu"
  | _ => "x"
  end.

Definition heap0 : Heap :=
  fun a =>
    match a with
    | 0 => mkVar 1%float 0%float false
    | 1 => mkVar 1%float 0%float false
    | _ => mkVar 0%float 0%float true
    end.

Definition state0 : State := mkState None heap0 [].

Definition calc : Calculator :=
  mkCalc (Some (Pdf 0)) (Some (Data 0)) (Some [0]) (Some [2]) 0.05%float "plc".

(** The same calculator before a POI set or a null set was given. *)
Definition calcNoSets : Calculator :=
  mkCalc (Some (Pdf 0)) (Some (Data 0)) None None 0.05%float "plc".

Definition muHat : list FitPar :=
  [mkFitPar "mu" 5%float 0.5%float; mkFitPar "sigma" 2%float 0.25%float].

(** A model with a nuisance parameter.  The unconditional fit ends at
    [mu = 5], [sigma = 2] with NLL 10; a conditional fit moves [sigma]. *)
Definition twoParam : FittingEngine := {|
  getParameters _ _ := Some [0; 1];
  fitTo _ _ _ opts h :=
    if optHesse opts
    then (Some (mkFit 10%float muHat), setVal 1 2%float (setVal 0 5%float h))
    else (Some (mkFit 15.2%float [mkFitPar "sigma" 3%float 0%float]),
          setVal 1 3%float h);
  nllGetVal _ _ _ _ := 15.2%float;
  profileGetVal _ h := (0%float, h);
  SignificanceToPValue z := z
|}.

(** The one-parameter model of the end-to-end scenario: freezing [mu]
    leaves nothing to fit, and the likelihood at [mu = 0] is 15.2. *)
Definition oneParam : FittingEngine := {|
  getParameters _ _ := Some [0];
  fitTo _ _ _ _ h :=
    (Some (mkFit 10%float [mkFitPar "mu" 5%float 0.5%float]), setVal 0 5%float h);
  nllGetVal _ _ _ h :=
    if PrimFloat.eqb (getVal (h 0)) 0%float then 15.2%float else 10%float;
  profileGetVal _ h := (0%float, h);
  SignificanceToPValue z := z
|}.

(** An engine whose fits hand back no result. *)
Definition noResult : FittingEngine := {|
  getParameters _ _ := Some [0; 1];
  fitTo _ _ _ _ h := (None, h);
  nllGetVal _ _ _ _ := 15.2%float;
  profileGetVal _ h := (0%float, h);
  SignificanceToPValue z := z
|}.

(** An engine whose conditional fit alone hands back no result. *)
Definition noCondResult : FittingEngine := {|
  getParameters _ _ := Some [0; 1];
  fitTo _ _ _ opts h :=
    if optHesse opts then (Some (mkFit 10%float muHat), h) else (None, h);
  nllGetVal _ _ _ _ := 15.2%float;
  profileGetVal _ h := (0%float, h);
  SignificanceToPValue z := z
|}.

(** A state in which a fit result of the one-parameter model is cached. *)
Definition stateCached : State :=
  mkState (Some (mkFit 10%float [mkFitPar "mu" 5%float 0.5%float])) heap0 [].

(** The calculator with a null set whose one parameter, [x] at address 3, is
    not a parameter of the model. *)
Definition calcOtherNull : Calculator :=
  mkCalc (Some (Pdf 0)) (Some (Data 0)) (Some [0]) (Some [3]) 0.05%float "plc".

(** The calculator with a POI set that is present but empty. *)
Definition calcEmptyPOI : Calculator :=
  mkCalc (Some (Pdf 0)) (Some (Data 0)) (Some []) (Some [2]) 0.05%float "plc".

(** An engine whose model hands back no parameter set. *)
Definition noParameters : FittingEngine := {|
  getParameters _ _ := None;
  fitTo _ _ _ _ h := (Some (mkFit 10%float muHat), h);
  nllGetVal _ _ _ _ := 15.2%float;
  profileGetVal _ h := (0%float, h);
  SignificanceToPValue z := z
|}.

(** A conversion tabulated at the two statistics of the scenarios: one half
    at zero and 6.3e-4 at 3.2249030993194197. *)
Definition tabulatedConversion (z : Double_t) : Double_t :=
  if PrimFloat.eqb z 0%float then 0.5%float
  else if PrimFloat.eqb z 3.2249030993194197%float then 6.3e-4%float
  else nan.

(** The one-parameter model with the tabulated conversion. *)
Definition oneParamTabulated : FittingEngine := {|
  getParameters _ _ := Some [0];
  fitTo _ _ _ _ h :=
    (Some (mkFit 10%float [mkFitPar "mu" 5%float 0.5%float]), setVal 0 5%float h);
  nllGetVal _ _ _ h :=
    if PrimFloat.eqb (getVal (h 0)) 0%float then 15.2%float else 10%float;
  profileGetVal _ h := (0%float, h);
  SignificanceToPValue := tabulatedConversion
|}.

(** A one-parameter model whose likelihood is flat: the NLL is 10 at the null
    value as at the best fit. *)
Definition flatTabulated : FittingEngine := {|
  getParameters _ _ := Some [0];
  fitTo _ _ _ _ h :=
    (Some (mkFit 10%float [mkFitPar "mu" 5%float 0.5%float]), setVal 0 5%float h);
  nllGetVal _ _ _ _ := 10%float;
  profileGetVal _ h := (0%float, h);
  SignificanceToPValue := tabulatedConversion
|}.

End Demo.

(** ** The p-value as a real number

    [SignificanceToPValue] (RooStatsUtils.h) is not part of this file, so the
    engine interface carries it as a function on doubles.  What it is meant
    to compute is stated over the reals. *)

Module Survival.
Local Open Scope R_scope.

(** The real number a finite double stands for. *)
Definition SF2R (x : spec_float) : option R :=
  match x with
  | S754_zero _ => Some 0
  | S754_finite s m e => Some ((if s then -1 else 1) * IZR (Z.pos m) * powerRZ 2 e)
  | S754_infinity _ | S754_nan => None
  end.

Definition finiteValue (x : Double_t) : option R := SF2R (Prim2SF x).

(** The standard normal density, up to its factor [1 / sqrt (2 * PI)]. *)
Definition gauss (t : R) : R := exp (- (t * t / 2)).

Lemma gauss_derivable : derivable gauss.
Proof. unfold gauss. reg. Qed.

Lemma gauss_continuous : continuity gauss.
Proof. apply derivable_continuous, gauss_derivable. Qed.

Definition gauss_integrable (z : R) : Riemann_integrable gauss 0 z :=
  match Rle_dec 0 z with
  | left h => continuity_implies_RiemannInt h (fun x _ => gauss_continuous x)
  | right h =>
      RiemannInt_P1
        (continuity_implies_RiemannInt (Rlt_le _ _ (Rnot_le_lt _ _ h))
           (fun x _ => gauss_continuous x))
  end.

(** Modelled from the spec: [SignificanceToPValue], which the spec describes
    as the one-sided standard normal survival function applied to the test
    statistic: the mass of the standard normal above [z], that is one half
    less the mass between [0] and [z]. *)
Definition normal_sf (z : R) : R :=
  1 / 2 - RiemannInt (gauss_integrable z) / sqrt (2 * PI).


(** *** The series that bound the integral

    [expTaylor n] is the Taylor polynomial of [exp (- u)] of degree [n], and
    [gaussPoly n] its term-by-term integral after [u := z * z / 2];
    [gaussSum] is [gaussPoly] computed term from term, and [gaussSumQ] the
    same sum over the rationals, where it can be evaluated. *)

(** Modelled from the spec: [SignificanceToPValue] (RooStatsUtils.h) is not
    part of this file; the spec has it apply the one-sided standard normal
    survival function to the statistic.  A double carries that real number
    only rounded: [survival_within tolerance f z] says that at the finite
    double [z] the conversion [f] hands back a finite double within
    [tolerance] of the survival function at [z]. *)
Definition survival_within (tolerance : R) (f : Double_t -> Double_t)
    (z : Double_t) : Prop :=
  exists q p,
    finiteValue z = Some q /\ finiteValue (f z) = Some p /\
    Rabs (p - normal_sf q) <= tolerance.

Definition coef (k : nat) : R := (-1) ^ k / INR (fact k).

Fixpoint expTaylor (n : nat) (u : R) : R :=
  match n with
  | O => 1
  | S n' => expTaylor n' u + coef n * u ^ n
  end.

Fixpoint gaussPoly (n : nat) (z : R) : R :=
  match n with
  | O => z
  | S n' => gaussPoly n' z + coef n / (2 ^ n * INR (2 * n + 1)) * z ^ (2 * n + 1)
  end.

Lemma le_0_4 : 0 <= 4.
Proof. lra. Qed.

(** The integral of [gauss] from [0], on [[0, 4]]. *)
Definition gaussPrimitive : R -> R :=
  primitive le_0_4 (FTC_P1 le_0_4 (fun x _ => gauss_continuous x)).

Fixpoint gaussTerm (k : nat) (z : R) : R :=
  match k with
  | O => z
  | S k' => gaussTerm k' z * (- (z * z) / 2) / INR k
  end.

Fixpoint gaussSum (n : nat) (z : R) : R :=
  match n with
  | O => z
  | S n' => gaussSum n' z + gaussTerm n z / INR (2 * n + 1)
  end.

Fixpoint gaussTermQ (k : nat) (z : Q) : Q :=
  match k with
  | O => z
  | S k' => (gaussTermQ k' z * (- (z * z) / 2) / inject_Z (Z.of_nat k))%Q
  end.

Fixpoint gaussSumQ (n : nat) (z : Q) : Q :=
  match n with
  | O => z
  | S n' => (gaussSumQ n' z + gaussTermQ n z / inject_Z (Z.of_nat (2 * n + 1)))%Q
  end.

End Survival.

(** * Facts *)

(** ** Binary64 subtraction keeps the sign of a strict comparison *)

Module IEEEFacts.
Local Open Scope Z_scope.
Lemma digits2_size p : digits2_pos p = Pos.size p.
Proof. induction p; simpl; congruence. Qed.

Lemma digits2_lower p : 2 ^ (Z.pos (digits2_pos p) - 1) <= Z.pos p.
Proof.
rewrite digits2_size.
pose proof (Pos.size_le p) as H.
assert (H' : 2 ^ Z.pos (Pos.size p) <= 2 * Z.pos p).
{ change (2 * Z.pos p) with (Z.pos p~0). rewrite <- Pos2Z.inj_pow. apply Pos2Z.pos_le_pos, H. }
replace (Z.pos (Pos.size p)) with (Z.succ (Z.pos (Pos.size p) - 1)) in H' by lia.
rewrite Z.pow_succ_r in H' by lia. lia.
Qed.

Lemma digits2_upper p : Z.pos p < 2 ^ Z.pos (digits2_pos p).
Proof.
rewrite digits2_size. rewrite <- Pos2Z.inj_pow. apply Pos2Z.pos_lt_pos, Pos.size_gt.
Qed.

Lemma shr_1_m r : 0 <= shr_m r -> shr_m (shr_1 r) = Z.div2 (shr_m r).
Proof.
destruct r as [m b s]; simpl. destruct m as [|[p|p|]|p]; simpl; try reflexivity; lia.
Qed.

Lemma iter_shr_m p : forall r, 0 <= shr_m r ->
shr_m (SpecFloat.iter_pos shr_1 p r) = shr_m r / 2 ^ Z.pos p.
Proof.
assert (nonneg : forall r, 0 <= shr_m r -> 0 <= shr_m (shr_1 r)).
{ intros r Hr. rewrite shr_1_m by assumption. rewrite Z.div2_div. apply Z.div_pos; lia. }
assert (pw : forall k, 0 < 2 ^ Z.pos k) by (intros; apply Z.pow_pos_nonneg; lia).
induction p as [p IH|p IH|]; intros r Hr; cbn [SpecFloat.iter_pos].
- assert (H1 : 0 <= shr_m (SpecFloat.iter_pos shr_1 p (shr_1 r))).
  { rewrite IH by auto. apply Z.div_pos; auto. }
  rewrite IH, IH, shr_1_m by auto.
  rewrite Z.div2_div, !Z.div_div by (auto; lia).
  f_equal. rewrite Pos2Z.inj_xI.
  replace (2 * Z.pos p + 1) with (1 + Z.pos p + Z.pos p) by lia.
  rewrite !Z.pow_add_r by lia. rewrite Z.pow_1_r. lia.
- assert (H1 : 0 <= shr_m (SpecFloat.iter_pos shr_1 p r)).
  { rewrite IH by auto. apply Z.div_pos; auto. }
  rewrite IH, IH by auto.
  rewrite Z.div_div by (pose proof (pw p); lia). f_equal.
  replace (Z.pos p~0) with (Z.pos p + Z.pos p) by lia.
  rewrite Z.pow_add_r by lia. reflexivity.
- rewrite shr_1_m by auto. rewrite Z.div2_div. reflexivity.
Qed.

Lemma shr_record_of_loc_m m l : shr_m (shr_record_of_loc m l) = m.
Proof. destruct l as [|[]]; reflexivity. Qed.

Lemma shr_fexp_pos m e l :
0 < m -> emin <= e ->
0 < shr_m (fst (shr_fexp prec emax m e l)) /\ emin <= snd (shr_fexp prec emax m e l).
Proof.
intros Hm He. unfold shr_fexp, shr.
destruct m as [|p|p]; try lia.
remember (fexp prec emax (Zdigits2 (Z.pos p) + e) - e) as n eqn:Hn.
destruct n as [|k|k]; simpl fst; simpl snd; rewrite ?shr_record_of_loc_m; try (split; lia).
assert (Hk : Z.pos k = Z.pos (digits2_pos p) - prec).
{ unfold fexp, SpecFloat.emin in Hn. simpl Zdigits2 in Hn.
  unfold SpecFloat.emin in He. lia. }
split; [|lia].
rewrite iter_shr_m by (rewrite shr_record_of_loc_m; lia).
rewrite shr_record_of_loc_m.
apply Z.div_str_pos. split; [apply Z.pow_pos_nonneg; lia|].
etransitivity; [|apply digits2_lower].
apply Z.pow_le_mono_r; [lia|]. rewrite Hk. unfold prec. lia.
Qed.

Lemma round_nearest_even_pos m l : 0 < m -> 0 < round_nearest_even m l.
Proof.
intros Hm. destruct l as [|[]]; simpl; try lia. destruct (Z.even m); lia.
Qed.

Lemma binary_round_aux_sign s m e l :
0 < m -> emin <= e -> has_sign s (binary_round_aux prec emax s m e l).
Proof.
intros Hm He. unfold binary_round_aux.
destruct (shr_fexp_pos m e l Hm He) as [H1 H2].
destruct (shr_fexp prec emax m e l) as [mrs' e']. simpl in H1, H2.
pose proof (round_nearest_even_pos _ (loc_of_shr_record mrs') H1) as H3.
destruct (shr_fexp_pos _ e' loc_Exact H3 H2) as [H4 H5].
destruct (shr_fexp prec emax _ e' loc_Exact) as [mrs'' e'']. simpl in H4, H5.
destruct (shr_m mrs'') as [|q|q]; try lia.
destruct (e'' <=? emax - prec); [right; eauto|left; reflexivity].
Qed.

Lemma fexp_ge_emin k : emin <= fexp prec emax k.
Proof. unfold fexp. apply Z.le_max_r. Qed.

Lemma binary_round_sign s m e :
emin <= e -> has_sign s (binary_round prec emax s m e).
Proof.
intros He. unfold binary_round.
destruct (shl_align m e _) as [mz ez] eqn:Hal.
apply binary_round_aux_sign; [lia|].
unfold shl_align in Hal.
destruct (fexp prec emax (Z.pos (digits2_pos m) + e) - e) eqn:Hd;
  inversion Hal; subst; auto using fexp_ge_emin.
Qed.

Lemma has_sign_neg x : has_sign true x -> SFltb x (S754_zero false) = true.
Proof. intros [->|(m & e & ->)]; reflexivity. Qed.

Lemma shl_align_val m e ez :
ez <= e -> Z.pos (fst (shl_align m e ez)) = Z.pos m * 2 ^ (e - ez).
Proof.
intros H. unfold shl_align.
destruct (ez - e) as [|d|d] eqn:Hd; try lia; simpl fst.
- replace (e - ez) with 0 by lia. lia.
- replace (e - ez) with (Z.pos d) by lia.
  change (Pos.iter xO m d) with (shift_pos d m).
  rewrite shift_pos_correct, Z.pow_pos_fold. lia.
Qed.

Lemma bounded_facts m e :
SpecFloat.bounded prec emax m e = true ->
emin <= e /\ Z.pos (digits2_pos m) <= prec /\
(emin < e -> Z.pos (digits2_pos m) = prec).
Proof.
unfold SpecFloat.bounded, canonical_mantissa, fexp. intros H.
apply andb_prop in H. destruct H as [H _]. apply Z.eqb_eq in H.
unfold SpecFloat.emin in *. lia.
Qed.

Lemma mag_lt m1 e1 m2 e2 :
SpecFloat.bounded prec emax m1 e1 = true -> SpecFloat.bounded prec emax m2 e2 = true ->
e1 < e2 -> Z.pos m1 < Z.pos m2 * 2 ^ (e2 - e1).
Proof.
intros B1 B2 Hlt.
destruct (bounded_facts _ _ B1) as (E1 & D1 & _).
destruct (bounded_facts _ _ B2) as (_ & _ & D2).
specialize (D2 ltac:(lia)).
pose proof (digits2_upper m1) as U1. pose proof (digits2_lower m2) as L2.
rewrite D2 in L2.
assert (2 ^ Z.pos (digits2_pos m1) <= 2 ^ prec) by (apply Z.pow_le_mono_r; lia).
assert (2 ^ 1 <= 2 ^ (e2 - e1)) by (apply Z.pow_le_mono_r; lia).
change (2 ^ prec) with (2 * 2 ^ (prec - 1)) in *.
change (2 ^ 1) with 2 in *. nia.
Qed.

Lemma finite_sub_diff sx mx ex sy my ey :
SpecFloat.bounded prec emax mx ex = true -> SpecFloat.bounded prec emax my ey = true ->
SFltb (S754_finite sx mx ex) (S754_finite sy my ey) = true ->
cond_Zopp sx (Z.pos mx * 2 ^ (ex - Z.min ex ey)) -
cond_Zopp sy (Z.pos my * 2 ^ (ey - Z.min ex ey)) < 0.
Proof.
intros VX VY Hlt.
assert (PX : 0 < 2 ^ (ex - Z.min ex ey)) by (apply Z.pow_pos_nonneg; lia).
assert (PY : 0 < 2 ^ (ey - Z.min ex ey)) by (apply Z.pow_pos_nonneg; lia).
unfold SFltb, SFcompare in Hlt.
change (Pos.compare_cont Eq mx my) with (Pos.compare mx my) in Hlt.
destruct sx, sy; try discriminate Hlt; unfold cond_Zopp; try nia.
- destruct (Z.compare_spec ex ey) as [->|L|G]; try discriminate Hlt.
  + destruct (Pos.compare_spec mx my); try discriminate Hlt.
    rewrite Z.min_id, Z.sub_diag in *. lia.
  + pose proof (mag_lt _ _ _ _ VY VX G).
    rewrite Z.min_r, Z.sub_diag by lia. lia.
- destruct (Z.compare_spec ex ey) as [->|L|G]; try discriminate Hlt.
  + destruct (Pos.compare_spec mx my); try discriminate Hlt.
    rewrite Z.min_id, Z.sub_diag in *. lia.
  + pose proof (mag_lt _ _ _ _ VX VY L).
    rewrite Z.min_l, Z.sub_diag by lia. lia.
Qed.

Lemma SFsub_lt_neg X Y :
valid_binary X = true -> valid_binary Y = true ->
SFltb X Y = true -> SFltb (SF64sub X Y) (S754_zero false) = true.
Proof.
intros VX VY Hlt.
destruct X as [sx|sx| |sx mx ex], Y as [sy|sy| |sy my ey];
  try discriminate Hlt;
  try solve [destruct sx; try discriminate Hlt; try reflexivity;
             destruct sy; try discriminate Hlt; reflexivity];
  try solve [destruct sx; try discriminate Hlt; reflexivity];
  try solve [destruct sy; try discriminate Hlt; reflexivity].
simpl in VX, VY.
pose proof (finite_sub_diff _ _ _ _ _ _ VX VY Hlt) as HD.
destruct (bounded_facts _ _ VX) as (EX & _), (bounded_facts _ _ VY) as (EY & _).
unfold SF64sub, SFsub.
rewrite (shl_align_val mx ex (Z.min ex ey)) by lia.
rewrite (shl_align_val my ey (Z.min ex ey)) by lia.
match goal with |- SFltb (binary_normalize _ _ ?D _ _) _ = _ =>
  destruct D eqn:E; try lia end.
apply has_sign_neg, binary_round_sign. lia.
Qed.

Theorem sub_lt_neg (x y : float) :
(x <? y)%float = true -> (x - y <? 0)%float = true.
Proof.
rewrite !FloatAxioms.ltb_spec, FloatAxioms.sub_spec. change (Prim2SF 0) with (S754_zero false).
apply SFsub_lt_neg; apply Prim2SF_valid.
Qed.

Lemma is_finite_SF (x : float) : PrimFloat.is_finite x = SF_finite (Prim2SF x).
Proof.
  unfold is_finite, is_nan, is_infinity.
  rewrite !FloatAxioms.eqb_spec, FloatAxioms.abs_spec. change (Prim2SF infinity) with (S754_infinity false).
  destruct (Prim2SF x) as [s|s| |s m e]; try reflexivity; try (destruct s; reflexivity).
  - assert (H : SFeqb (S754_finite s m e) (S754_finite s m e) = true).
    { unfold SFeqb, SFcompare.
      change (Pos.compare_cont Eq m m) with (Pos.compare m m).
      rewrite Z.compare_refl, Pos.compare_refl. destruct s; reflexivity. }
    rewrite H. reflexivity.
Qed.

Lemma SFsub_eq_zero X Y :
  SFeqb X Y = true -> SF_finite X = true ->
  exists s, SF64sub X Y = S754_zero s.
Proof.
  intros Heq Hfin.
  destruct X as [sx|sx| |sx mx ex], Y as [sy|sy| |sy my ey];
    try discriminate Hfin; try discriminate Heq;
    try (destruct sy; discriminate Heq); try (destruct sx; discriminate Heq).
  - destruct sx, sy; cbn; eauto.
  - unfold SFeqb, SFcompare in Heq.
    change (Pos.compare_cont Eq mx my) with (Pos.compare mx my) in Heq.
    assert (sx = sy /\ ex = ey /\ mx = my) as (-> & -> & ->).
    { destruct sx, sy; try discriminate Heq;
        destruct (Z.compare_spec ex ey); try discriminate Heq;
        destruct (Pos.compare_spec mx my); try discriminate Heq; auto. }
    exists false. unfold SF64sub, SFsub. rewrite Z.sub_diag. reflexivity.
Qed.

Theorem sub_eq_zero (x y : float) :
  (x =? y)%float = true -> PrimFloat.is_finite x = true ->
  (x - y)%float = 0%float \/ (x - y)%float = (-0)%float.
Proof.
  rewrite FloatAxioms.eqb_spec, is_finite_SF. intros Heq Hfin.
  destruct (SFsub_eq_zero _ _ Heq Hfin) as [s Hs].
  rewrite <- FloatAxioms.sub_spec in Hs.
  rewrite <- (SF2Prim_Prim2SF (x - y)), Hs. destruct s; [right|left]; reflexivity.
Qed.

Lemma leb_cases (x y : float) :
  (x <=? y)%float = true <-> (x <? y)%float = true \/ (x =? y)%float = true.
Proof.
  rewrite FloatAxioms.leb_spec, FloatAxioms.ltb_spec, FloatAxioms.eqb_spec. unfold SFleb, SFltb, SFeqb.
  destruct (SFcompare (Prim2SF x) (Prim2SF y)) as [[]|]; intuition discriminate.
Qed.

End IEEEFacts.

(** ** Binary64: the sign of a difference, a product and a square root *)

Module IEEESign.
Import IEEEKind IEEEFacts.
Local Open Scope Z_scope.

Lemma has_sign_pos x : has_sign false x -> SFltb (S754_zero false) x = true.
Proof. intros [->|(m & e & ->)]; reflexivity. Qed.

Lemma has_sign_pos_not_neg x : has_sign false x -> SFltb x (S754_zero false) = false.
Proof. intros [->|(m & e & ->)]; reflexivity. Qed.

Lemma SFsub_gt_pos X Y :
  valid_binary X = true -> valid_binary Y = true ->
  SFltb Y X = true -> has_sign false (SF64sub X Y).
Proof.
  intros VX VY Hlt.
  destruct X as [sx|sx| |sx mx ex], Y as [sy|sy| |sy my ey];
    try discriminate Hlt;
    try solve [destruct sx; try discriminate Hlt;
               destruct sy; try discriminate Hlt;
               cbn; unfold has_sign; eauto];
    try solve [destruct sx; try discriminate Hlt; cbn; unfold has_sign; eauto];
    try solve [destruct sy; try discriminate Hlt; cbn; unfold has_sign; eauto].
  simpl in VX, VY.
  pose proof (finite_sub_diff _ _ _ _ _ _ VY VX Hlt) as HD.
  rewrite <- (Z.min_comm ex ey) in HD.
  destruct (bounded_facts _ _ VX) as (EX & _), (bounded_facts _ _ VY) as (EY & _).
  unfold SF64sub, SFsub.
  rewrite (shl_align_val mx ex (Z.min ex ey)) by lia.
  rewrite (shl_align_val my ey (Z.min ex ey)) by lia.
  match goal with |- has_sign _ (binary_normalize _ _ ?D _ _) =>
    destruct D eqn:E; try lia end.
  apply binary_round_sign. lia.
Qed.

(** For [y < x] the difference [x - y] is above zero. *)
Lemma sub_gt_pos (x y : float) :
  (y <? x)%float = true ->
  (0 <? x - y)%float = true /\ (x - y <? 0)%float = false.
Proof.
  rewrite !FloatAxioms.ltb_spec, FloatAxioms.sub_spec.
  change (Prim2SF 0) with (S754_zero false). intros H.
  pose proof (SFsub_gt_pos _ _ (Prim2SF_valid x) (Prim2SF_valid y) H) as Hs.
  split; [apply has_sign_pos|apply has_sign_pos_not_neg]; exact Hs.
Qed.

Lemma shr_nonneg mrs e n : 0 <= shr_m mrs -> 0 <= shr_m (fst (shr mrs e n)).
Proof.
  intros H. unfold shr. destruct n as [|p|p]; cbn [fst]; auto.
  rewrite iter_shr_m by assumption. apply Z.div_pos; [assumption|].
  apply Z.pow_pos_nonneg; lia.
Qed.

Lemma shr_fexp_nonneg m e l : 0 <= m -> 0 <= shr_m (fst (shr_fexp prec emax m e l)).
Proof.
  intros H. unfold shr_fexp. apply shr_nonneg. rewrite shr_record_of_loc_m. exact H.
Qed.

Lemma round_nearest_even_nonneg m l : 0 <= m -> 0 <= round_nearest_even m l.
Proof.
  intros Hm. destruct l as [|[]]; simpl; try lia. destruct (Z.even m); lia.
Qed.

(** Rounding a mantissa that is not negative gives a zero, a number or an
    infinity of the sign asked for, never a NaN. *)
Lemma binary_round_aux_shape s m e l :
  0 <= m ->
  binary_round_aux prec emax s m e l = S754_zero s \/
  has_sign s (binary_round_aux prec emax s m e l).
Proof.
  intros Hm. unfold binary_round_aux.
  pose proof (shr_fexp_nonneg m e l Hm) as H1.
  destruct (shr_fexp prec emax m e l) as [mrs' e']. cbn [fst] in H1.
  pose proof (round_nearest_even_nonneg _ (loc_of_shr_record mrs') H1) as H3.
  pose proof (shr_fexp_nonneg _ e' loc_Exact H3) as H4.
  destruct (shr_fexp prec emax _ e' loc_Exact) as [mrs'' e'']. cbn [fst] in H4.
  destruct (shr_m mrs'') as [|q|q]; try lia; [left; reflexivity|right].
  destruct (e'' <=? emax - prec); [right; eauto|left; reflexivity].
Qed.

Lemma binary_round_aux_nonneg m e l :
  0 <= m -> SF_nonneg (binary_round_aux prec emax false m e l) = true.
Proof.
  intros Hm.
  destruct (binary_round_aux_shape false m e l Hm) as [-> | [-> | (q & e' & ->)]];
    reflexivity.
Qed.

Lemma SFsqrt_core_nonneg m e :
  0 <= fst (fst (SFsqrt_core_binary prec emax m e)).
Proof.
  unfold SFsqrt_core_binary.
  match goal with |- context [Z.sqrtrem ?a] =>
    pose proof (Z.sqrtrem_sqrt a) as Hq; pose proof (Z.sqrt_nonneg a) as Hn;
    destruct (Z.sqrtrem a) as [q r] end.
  cbn [fst] in *. subst q. exact Hn.
Qed.

(** The square root of a double that is not a NaN and not below zero is
    again such a double. *)
Lemma SFsqrt_nonneg X : SF_nonneg X = true -> SF_nonneg (SF64sqrt X) = true.
Proof.
  destruct X as [s|[]| |[] m e]; try discriminate; intros _; try reflexivity.
  unfold SF64sqrt, SFsqrt.
  pose proof (SFsqrt_core_nonneg (Z.pos m) e) as H.
  destruct (SFsqrt_core_binary prec emax (Z.pos m) e) as [[mz ez] lz].
  cbn [fst] in H. apply binary_round_aux_nonneg, H.
Qed.

(** Whatever its argument, a square root is not below zero. *)
Lemma SFsqrt_not_neg X : SFltb (SF64sqrt X) (S754_zero false) = false.
Proof.
  destruct X as [[]|[]| |[] m e]; try reflexivity.
  assert (H : SF_nonneg (SF64sqrt (S754_finite false m e)) = true)
    by (apply SFsqrt_nonneg; reflexivity).
  destruct (SF64sqrt (S754_finite false m e)) as [[]|[]| |[] ? ?];
    try discriminate H; reflexivity.
Qed.

(** Doubling keeps a double that is not a NaN and not below zero such. *)
Lemma SFmul_two_nonneg X :
  SF_nonneg X = true -> SF_nonneg (SF64mul (Prim2SF 2%float) X) = true.
Proof.
  change (Prim2SF 2%float) with (S754_finite false 4503599627370496 (-51)).
  destruct X as [[]|[]| |[] m e]; try discriminate; intros _; try reflexivity.
  unfold SF64mul, SFmul. cbn [xorb].
  apply binary_round_aux_nonneg. lia.
Qed.

Lemma SFltb_zero_false X :
  SFltb X (S754_zero false) = false -> SF_nan X = true \/ SF_nonneg X = true.
Proof. destruct X as [[]|[]| |[] m e]; cbn; intros H; auto; discriminate H. Qed.

Lemma SF_nonneg_not_nan X : SF_nonneg X = true -> SF_nan X = false.
Proof. destruct X as [[]|[]| |[] m e]; cbn; intros H; auto; discriminate H. Qed.

Lemma SF_nonneg_not_neg X : SF_nonneg X = true -> SFltb X (S754_zero false) = false.
Proof. destruct X as [[]|[]| |[] m e]; cbn; intros H; auto; discriminate H. Qed.

Lemma has_sign_nonneg X : has_sign false X -> SF_nonneg X = true.
Proof. intros [->|(m & e & ->)]; reflexivity. Qed.

Lemma is_nan_SF (x : float) : PrimFloat.is_nan x = SF_nan (Prim2SF x).
Proof.
  unfold is_nan. rewrite FloatAxioms.eqb_spec.
  destruct (Prim2SF x) as [s|s| |s m e]; try reflexivity; try (destruct s; reflexivity).
  unfold SFeqb, SFcompare.
  change (Pos.compare_cont Eq m m) with (Pos.compare m m).
  rewrite Z.compare_refl, Pos.compare_refl. destruct s; reflexivity.
Qed.

End IEEESign.

(** ** Name-keyed collections and the store *)

Section ArgSetFacts.
Context {A : Type} (name : A -> string).

Lemma find_name (s : list A) (n : string) (x : A) :
  find name s n = Some x -> name x = n /\ In x s.
Proof.
  unfold find. intros H. apply find_some in H. destruct H as [Hin Heq].
  apply String.eqb_eq in Heq. auto.
Qed.

Lemma find_self (s : list A) (x : A) :
  NoDup (map name s) -> In x s -> find name s (name x) = Some x.
Proof.
  unfold find. induction s as [|y s IH]; intros Hnd Hin; [contradiction|].
  cbn [List.find]. inversion Hnd as [|? ? Hy Hnd']; subst.
  destruct (String.eqb_spec (name y) (name x)) as [E|E].
  - destruct Hin as [->|Hin]; [reflexivity|].
    exfalso. apply Hy. rewrite E. apply in_map, Hin.
  - destruct Hin as [->|Hin]; [congruence|]. apply IH; assumption.
Qed.

Lemma find_none (s : list A) (n : string) :
  find name s n = None -> ~ In n (map name s).
Proof.
  unfold find. intros H Hin. apply in_map_iff in Hin.
  destruct Hin as (x & Hx & Hin).
  pose proof (find_none _ _ H x Hin) as Hf. cbn in Hf.
  rewrite Hx, String.eqb_refl in Hf. discriminate.
Qed.

Lemma find_app (s1 s2 : list A) (n : string) :
  find name (s1 ++ s2) n =
  match find name s1 n with
  | Some x => Some x
  | None => find name s2 n
  end.
Proof.
  unfold find. induction s1 as [|y s1 IH]; cbn; [reflexivity|].
  destruct (String.eqb (name y) n); auto.
Qed.

Lemma find_add (s : list A) (x : A) (n : string) :
  find name (add name s x) n =
  match find name s n with
  | Some y => Some y
  | None => if String.eqb (name x) n then Some x else None
  end.
Proof.
  unfold add. destruct (find name s (name x)) as [y|] eqn:E.
  - destruct (find name s n) eqn:En; [reflexivity|].
    destruct (String.eqb_spec (name x) n); [congruence|reflexivity].
  - rewrite find_app. destruct (find name s n); [reflexivity|].
    unfold find. cbn. reflexivity.
Qed.

Lemma find_addAll (xs : list A) : forall (s : list A) (n : string),
  find name (addAll name s xs) n =
  match find name s n with
  | Some y => Some y
  | None => find name xs n
  end.
Proof.
  unfold addAll. induction xs as [|x xs IH]; intros s n; cbn [fold_left].
  - destruct (find name s n); reflexivity.
  - rewrite IH, find_add. destruct (find name s n); [reflexivity|].
    unfold find at 2. cbn [List.find].
    destruct (String.eqb (name x) n); reflexivity.
Qed.

Lemma add_fresh (s : list A) (x : A) :
  ~ In (name x) (map name s) -> add name s x = s ++ [x].
Proof.
  intros H. unfold add. destruct (find name s (name x)) as [y|] eqn:E; [|reflexivity].
  exfalso. apply H. destruct (find_name _ _ _ E) as [<- Hin]. apply in_map, Hin.
Qed.

Lemma fold_add_fresh {B : Type} (key : B -> string) (f : B -> A) :
  (forall b, name (f b) = key b) ->
  forall (l : list B) (acc : list A),
    NoDup (map key l) ->
    (forall b, In b l -> ~ In (key b) (map name acc)) ->
    fold_left (fun acc b => add name acc (f b)) l acc = acc ++ map f l.
Proof.
  intros Hkey. induction l as [|b l IH]; intros acc Hnd Hfresh; cbn.
  - rewrite app_nil_r. reflexivity.
  - inversion Hnd as [|? ? Hb Hnd']; subst.
    rewrite add_fresh by (rewrite Hkey; apply Hfresh; left; reflexivity).
    rewrite IH; [rewrite <- app_assoc; reflexivity|assumption|].
    intros b' Hb' Hin. rewrite map_app, in_app_iff in Hin. destruct Hin as [Hin|Hin].
    + apply (Hfresh b'); [right; assumption|assumption].
    + cbn in Hin. destruct Hin as [Hin|[]]. rewrite Hkey in Hin.
      apply Hb. rewrite Hin. apply in_map, Hb'.
Qed.

End ArgSetFacts.

Lemma fold_left_ext {A B : Type} (f g : A -> B -> A) :
  (forall a b, f a b = g a b) ->
  forall (l : list B) (a : A), fold_left f l a = fold_left g l a.
Proof.
  intros H. induction l as [|b l IH]; intros a; cbn; [reflexivity|].
  rewrite H. apply IH.
Qed.

Lemma upd_same (h : Heap) (a : addr) (v : RooRealVar) : upd h a v a = v.
Proof. unfold upd. rewrite Nat.eqb_refl. reflexivity. Qed.

Lemma upd_other (h : Heap) (a x : addr) (v : RooRealVar) :
  x <> a -> upd h a v x = h x.
Proof. unfold upd. intros H. apply Nat.eqb_neq in H. rewrite H. reflexivity. Qed.

(** ** The runs of the calculator *)

Section Facts.
Context (GetName : addr -> string) {engine : FittingEngine} (calc : Calculator).

Local Abbreviation ensured := (ensured calc).
Local Abbreviation interval_run := (interval_run GetName calc).
Local Abbreviation hypotest_run := (hypotest_run GetName calc).
Local Abbreviation bestFitOf := (bestFitOf GetName).

Lemma state_eta s : mkState (fFitResult s) (heap s) (calls s) = s.
Proof. destruct s; reflexivity. Qed.

Lemma globalFits_app l c :
  globalFits (l ++ [c]) = globalFits l + (if isFitTo globalFitOptions c then 1 else 0).
Proof.
  unfold globalFits. rewrite filter_app, length_app. simpl.
  destruct (isFitTo globalFitOptions c); reflexivity.
Qed.

Lemma condFits_app l c :
  condFits (l ++ [c]) = condFits l + (if isFitTo condFitOptions c then 1 else 0).
Proof.
  unfold condFits. rewrite filter_app, length_app. simpl.
  destruct (isFitTo condFitOptions c); reflexivity.
Qed.

Lemma ensureGlobalFit_inv s u s' :
  ensureGlobalFit calc s = Some (u, s') -> ensured s s'.
Proof.
  unfold ensureGlobalFit, DoGlobalFit, DoReset, bind, getFitResult, setFitResult,
    getHeap, callFitTo, deref, ret, crash.
  destruct (fFitResult s) as [fit|] eqn:Hc.
  - intros H; inversion H; subst. econstructor 1; eauto.
  - cbn [heap calls fFitResult].
    destruct (GetData calc) as [data|] eqn:Hd.
    2:{ intros H; inversion H; subst. rewrite <- Hc, state_eta.
        apply ensured_skipped; auto. }
    destruct (GetPdf calc) as [pdf|] eqn:Hp.
    2:{ intros H; inversion H; subst. rewrite <- Hc, state_eta.
        apply ensured_skipped; auto. }
    destruct (getParameters pdf data) as [cp0|] eqn:Hg.
    2:{ intros H; inversion H; subst. rewrite <- Hc, state_eta.
        apply ensured_skipped; eauto 10. }
    cbn [heap calls fFitResult].
    destruct (fitTo pdf data (RemoveConstantParameters (heap s) cp0) globalFitOptions (heap s)) as [[fit|] h'] eqn:Hf;
      intros H; inversion H; subst.
    eapply ensured_fitted; eauto.
Qed.

Lemma ensured_cache_kept s s' fit :
  ensured s s' -> fFitResult s = Some fit -> s' = s.
Proof. intros [] Hc; congruence. Qed.

Lemma GetInterval_inv s r s' :
  GetInterval GetName calc s = Some (r, s') -> interval_run s r s'.
Proof.
  unfold GetInterval.
  destruct (GetData calc) as [data|] eqn:Hd;
    [|intros H; inversion H; subst; constructor; auto].
  destruct (GetPdf calc) as [pdf|] eqn:Hp;
    [|intros H; inversion H; subst; constructor; auto].
  destruct (fPOI calc) as [poi|] eqn:Hpoi;
    [|intros H; inversion H; subst; constructor; auto].
  unfold bind at 1. unfold deref.
  destruct (getParameters pdf data) as [cp0|] eqn:Hg; [|discriminate].
  unfold ret at 1. unfold bind at 1, getHeap at 1.
  unfold bind at 1, logCall at 1. unfold bind at 1, logCall at 1.
  cbn [heap calls fFitResult]. unfold bind at 1.
  match goal with |- context [ensureGlobalFit calc ?s0] =>
    destruct (ensureGlobalFit calc s0) as [[[] s1]|] eqn:He; [|discriminate] end.
  rewrite <- app_assoc in He.
  pose proof (ensureGlobalFit_inv _ _ _ He) as He1.
  unfold bind at 1, getFitResult at 1.
  destruct (fFitResult s1) as [fit|] eqn:Hc.
  - unfold bind at 1, modifyHeap at 1. unfold bind at 1, callProfileGetVal at 1.
    cbn [heap calls fFitResult].
    destruct (profileGetVal _ _) as [v h2] eqn:Hv.
    unfold ret. intros [= <- <-]. rewrite Hc.
    eapply interval_built; eauto.
  - exfalso.
    destruct He1 as [fit Hf|? ? ? ? ? _ _ _ _ _|_ [?|[?|(d & p & ? & ? & ?)]]];
      cbn [fFitResult] in *; congruence.
Qed.

Lemma GetHypoTest_inv s r s' :
  GetHypoTest GetName calc s = Some (r, s') -> hypotest_run s r s'.
Proof.
  unfold GetHypoTest.
  destruct (GetData calc) as [data|] eqn:Hd;
    [|intros [= <- <-]; constructor; auto].
  destruct (GetPdf calc) as [pdf|] eqn:Hp;
    [|intros [= <- <-]; constructor; auto].
  destruct (fNullParams calc) as [nullParams|] eqn:Hn;
    [|intros [= <- <-]; constructor; auto].
  unfold bind at 1.
  destruct (ensureGlobalFit calc s) as [[[] s1]|] eqn:He; [|discriminate].
  pose proof (ensureGlobalFit_inv _ _ _ He) as He1.
  unfold bind at 1, getFitResult at 1.
  destruct (fFitResult s1) as [fit|] eqn:Hc.
  - unfold hypoTestBody. unfold bind at 1, deref at 1.
    destruct (getParameters pdf data) as [cp0|] eqn:Hg; [|discriminate].
    unfold ret at 1. unfold bind at 1, getHeap at 1. unfold bind at 1.
    assert (He2 : ensureGlobalFit calc s1 = Some (tt, s1)).
    { unfold ensureGlobalFit, bind, getFitResult. rewrite Hc. reflexivity. }
    rewrite He2. unfold bind at 1, getFitResult at 1. rewrite Hc.
    unfold bind at 1, deref at 1, ret at 1. unfold bind at 1, getHeap at 1.
    destruct (freezeNull GetName _ nullParams (heap s1)) as [olds hf] eqn:Hfz.
    unfold bind at 1, modifyHeap at 1. unfold bind at 1.
    destruct (existVarParams hf _) eqn:Hex.
    + unfold bind at 1, callFitTo at 1. cbn [heap calls fFitResult].
      destruct (fitTo pdf data _ condFitOptions hf) as [[fit2|] h3] eqn:Hf2;
        [|discriminate].
      unfold bind at 1, deref at 1, ret at 1. unfold ret at 1.
      unfold bind at 1, modifyHeap at 1. unfold ret.
      cbn [heap calls fFitResult]. intros [= <- <-]. rewrite Hc.
      eapply hypotest_done; eauto. eapply cond_fit; eauto.
    + unfold bind at 1, logCall at 1. unfold callNLLGetVal.
      cbn [heap calls fFitResult].
      unfold bind at 1, modifyHeap at 1. unfold ret.
      cbn [heap calls fFitResult]. intros [= <- <-]. rewrite Hc.
      rewrite <- app_assoc.
      eapply hypotest_done; eauto. eapply cond_eval; eauto.
  - unfold ret. intros [= <- <-].
    destruct He1 as [fit Hf|? ? ? ? ? _ _ _ _ _|Hnone [?|[?|(d & p & ? & ? & ?)]]];
      cbn [fFitResult] in *; try congruence.
    eapply hypotest_nofit; eauto; congruence.
Qed.

(** *** Missing inputs *)

(** C8. With the dataset, the model or the POI set absent, [GetInterval]
    returns the empty result and leaves the whole state as it was: no engine
    call, so no fit, and no write to a parameter or to the cache.  The same
    holds for [GetHypoTest] with the dataset, the model or the null set
    absent. *)
Theorem missing_input_returns_empty (s : State) :
  (GetData calc = None \/ GetPdf calc = None \/ fPOI calc = None ->
   GetInterval GetName calc s = Some (None, s)) /\
  (GetData calc = None \/ GetPdf calc = None \/ fNullParams calc = None ->
   GetHypoTest GetName calc s = Some (None, s)).
Proof.
  split; intros H.
  - unfold GetInterval.
    destruct (GetData calc); [|reflexivity].
    destruct (GetPdf calc); [|reflexivity].
    destruct (fPOI calc); [|reflexivity].
    destruct H as [H|[H|H]]; discriminate H.
  - unfold GetHypoTest.
    destruct (GetData calc); [|reflexivity].
    destruct (GetPdf calc); [|reflexivity].
    destruct (fNullParams calc); [|reflexivity].
    destruct H as [H|[H|H]]; discriminate H.
Qed.

(** *** A fit that hands back no result *)

Lemma DoGlobalFit_null_result s data pdf cp0 h' :
  GetData calc = Some data -> GetPdf calc = Some pdf ->
  getParameters pdf data = Some cp0 ->
  fitTo pdf data (RemoveConstantParameters (heap s) cp0) globalFitOptions (heap s)
    = (None, h') ->
  DoGlobalFit calc s = None.
Proof.
  intros Hd Hp Hg Hf.
  unfold DoGlobalFit, DoReset, bind, setFitResult, getHeap, callFitTo, deref, crash.
  rewrite Hd, Hp, Hg. cbn [heap calls fFitResult]. rewrite Hf. reflexivity.
Qed.

(** With the inputs present and nothing cached, a global fit without a
    result stops both queries at [fit->Print()]. *)
Lemma queries_stop_on_null_global_fit s data pdf cp0 h' :
  GetData calc = Some data -> GetPdf calc = Some pdf ->
  fFitResult s = None ->
  getParameters pdf data = Some cp0 ->
  fitTo pdf data (RemoveConstantParameters (heap s) cp0) globalFitOptions (heap s)
    = (None, h') ->
  (fPOI calc <> None -> GetInterval GetName calc s = None) /\
  (fNullParams calc <> None -> GetHypoTest GetName calc s = None).
Proof.
  intros Hd Hp Hc Hg Hf. split; intros Hset.
  - unfold GetInterval. rewrite Hd, Hp.
    destruct (fPOI calc) as [poi|]; [|congruence].
    unfold bind at 1, deref at 1. rewrite Hg. unfold ret at 1.
    unfold bind at 1, getHeap at 1. unfold bind at 1, logCall at 1.
    unfold bind at 1, logCall at 1. cbn [heap calls fFitResult].
    unfold bind at 1, ensureGlobalFit, bind at 1, getFitResult at 1.
    cbn [heap calls fFitResult]. rewrite Hc.
    erewrite DoGlobalFit_null_result; eauto.
  - unfold GetHypoTest. rewrite Hd, Hp.
    destruct (fNullParams calc) as [nullParams|]; [|congruence].
    unfold bind at 1, ensureGlobalFit, bind at 1, getFitResult at 1. rewrite Hc.
    erewrite DoGlobalFit_null_result; eauto.
Qed.

(** *** Counting the unconditional fits *)

Lemma ensured_fits s s' :
  ensured s s' ->
  condFits (calls s') = condFits (calls s) /\
  (forall fit, fFitResult s = Some fit ->
     fFitResult s' = Some fit /\ globalFits (calls s') = globalFits (calls s)) /\
  (fFitResult s = None -> fFitResult s' <> None ->
     globalFits (calls s') = globalFits (calls s) + 1).
Proof.
  intros [fit Hc|data pdf cp0 fit h' Hc _ _ _ _|Hc _]; cbn [fFitResult calls].
  - repeat split; intros; congruence.
  - rewrite globalFits_app, condFits_app. cbn.
    repeat split; intros; try congruence; lia.
  - repeat split; intros; congruence.
Qed.

Lemma interval_run_effect s r s' : interval_run s r s' -> query_effect s r s'.
Proof.
  intros [Hm|data pdf poi cp0 s1 fit v h2 Hd Hp Hpoi Hg cp He Hc Hv].
  - repeat split; intros; congruence.
  - apply ensureGlobalFit_inv in He. apply ensured_fits in He.
    cbn [fFitResult calls] in He.
    destruct He as (_ & Hkeep & Hnew).
    rewrite app_assoc, !globalFits_app in Hkeep, Hnew. cbn in Hkeep, Hnew.
    unfold query_effect. cbn [fFitResult calls]. rewrite globalFits_app. cbn.
    repeat split; intros; try congruence.
    + destruct (Hkeep _ H). congruence.
    + destruct (Hkeep _ H). lia.
    + rewrite Hnew by congruence. lia.
Qed.

Lemma cond_step_calls pdf data cp hf cond h3 newcalls l :
  cond_step pdf data cp hf cond h3 newcalls ->
  globalFits (l ++ newcalls) = globalFits l.
Proof.
  intros []; [|change [CallCreateNLL pdf data cp; CallNLLGetVal]
                 with ([CallCreateNLL pdf data cp] ++ [CallNLLGetVal]);
               rewrite app_assoc];
    rewrite !globalFits_app; cbn; lia.
Qed.

Lemma hypotest_run_effect s r s' : hypotest_run s r s' -> query_effect s r s'.
Proof.
  intros [Hm|data pdf Hd Hp Hc Hg
          |data pdf nullParams cp0 s1 fit olds hf cond h3 newcalls
             Hd Hp Hn He Hc Hg cp Hfz Hstep].
  - repeat split; intros; congruence.
  - repeat split; intros; congruence.
  - apply ensureGlobalFit_inv in He. apply ensured_fits in He.
  destruct He as (_ & Hkeep & Hnew).
    unfold query_effect. cbn [fFitResult calls].
    rewrite (cond_step_calls _ _ _ _ _ _ _ _ Hstep).
    repeat split; intros; try congruence.
    + destruct (Hkeep _ H). congruence.
    + destruct (Hkeep _ H). lia.
    + apply Hnew; congruence.
Qed.

Lemma query_effect_map {A B} (f : A -> B) s (r : option A) s' :
  query_effect s r s' -> query_effect s (option_map f r) s'.
Proof.
  unfold query_effect. intros (H1 & H2 & H3 & H4).
  destruct r; cbn; (split; [|split; [|split]]); intros; auto; try congruence.
  - apply H2; discriminate.
  - apply H4; auto; discriminate.
Qed.

Lemma runQuery_effect q s r s' :
  runQuery GetName calc q s = Some (r, s') -> query_effect s r s'.
Proof.
  destruct q; unfold runQuery, bind, ret.
  - destruct (GetInterval GetName calc s) as [[r0 s0]|] eqn:E; [|discriminate].
    intros [= <- <-]. apply GetInterval_inv, interval_run_effect in E.
    apply query_effect_map, E.
  - destruct (GetHypoTest GetName calc s) as [[r0 s0]|] eqn:E; [|discriminate].
    intros [= <- <-]. apply GetHypoTest_inv, hypotest_run_effect in E.
    apply query_effect_map, E.
Qed.

(** Two queries in a row on a calculator whose cache is empty, both
    returning: if at least one of them hands back a result, the
    unconditional fit ran exactly once; if neither does, it did not run at
    all; and once the first query has handed back a result, the second one
    fits nothing and leaves the cached fit result in place. *)
Lemma two_queries_fit_count
    (q1 q2 : Query) (s0 s1 s2 : State) (r1 r2 : Answer) :
  fFitResult s0 = None ->
  runQuery GetName calc q1 s0 = Some (r1, s1) ->
  runQuery GetName calc q2 s1 = Some (r2, s2) ->
  (r1 <> None \/ r2 <> None ->
   globalFits (calls s2) = globalFits (calls s0) + 1) /\
  (r1 = None -> r2 = None ->
   globalFits (calls s2) = globalFits (calls s0)) /\
  (r1 <> None ->
   fFitResult s2 = fFitResult s1 /\
   globalFits (calls s2) = globalFits (calls s1)).
Proof.
  intros Hc H1 H2.
  apply runQuery_effect in H1. apply runQuery_effect in H2.
  destruct H1 as (A1 & B1 & C1 & D1), H2 as (A2 & B2 & C2 & D2).
  assert (Hreuse : r1 <> None ->
            fFitResult s2 = fFitResult s1 /\
            globalFits (calls s2) = globalFits (calls s1)).
  { intros Hr. specialize (B1 Hr).
    destruct (fFitResult s1) as [fit|] eqn:E; [|congruence].
    destruct (C2 fit eq_refl). split; congruence. }
  split; [|split]; auto.
  - destruct r1 as [a1|].
    + intros _. destruct Hreuse as [_ ->]; [discriminate|].
      apply D1; [assumption|discriminate].
    + intros [Hr|Hr]; [congruence|].
      rewrite (A1 eq_refl) in *. apply D2; assumption.
  - intros -> ->. rewrite (A2 eq_refl), (A1 eq_refl). reflexivity.
Qed.

(** A query that returns on a calculator with its inputs present: an
    interval query has found the parameter set of the model and hands back
    an interval; a hypothesis test hands back a result as soon as the model
    has a parameter set or a fit result is cached. *)
Lemma query_with_inputs_has_result
    (q : Query) (s s' : State) (r : Answer) (data : RooAbsData) (pdf : RooAbsPdf) :
  GetData calc = Some data -> GetPdf calc = Some pdf ->
  (q = AskInterval -> fPOI calc <> None) ->
  (q = AskHypoTest -> fNullParams calc <> None) ->
  runQuery GetName calc q s = Some (r, s') ->
  (q = AskInterval -> getParameters pdf data <> None /\ r <> None) /\
  (q = AskHypoTest ->
   getParameters pdf data <> None \/ fFitResult s <> None -> r <> None).
Proof.
  intros Hd Hp Hpoi Hnull Hrun. destruct q; unfold runQuery, bind, ret in Hrun.
  - destruct (GetInterval GetName calc s) as [[r0 s0]|] eqn:E; [|discriminate].
    injection Hrun as <- <-. apply GetInterval_inv in E.
    split; [intros _|discriminate].
    destruct E as [Hm|data' pdf' poi cp0 s1 fit v h2 Hd' Hp' Hpoi' Hg cp He Hc Hv].
    + exfalso. specialize (Hpoi eq_refl). destruct Hm as [Hm|[Hm|Hm]]; congruence.
    + assert (data' = data) by congruence. assert (pdf' = pdf) by congruence.
      subst data' pdf'. split; [congruence|discriminate].
  - destruct (GetHypoTest GetName calc s) as [[r0 s0]|] eqn:E; [|discriminate].
    injection Hrun as <- <-. apply GetHypoTest_inv in E.
    split; [discriminate|intros _ Hhas].
    destruct E as [Hm|data' pdf' Hd' Hp' Hc Hg
                   |data' pdf' nullParams cp0 s1 fit olds hf cond h3 newcalls
                      Hd' Hp' Hn He Hc Hg cp Hfz Hstep].
    + exfalso. specialize (Hnull eq_refl). destruct Hm as [Hm|[Hm|Hm]]; congruence.
    + exfalso. assert (data' = data) by congruence. assert (pdf' = pdf) by congruence.
      subst data' pdf'. destruct Hhas; congruence.
    + discriminate.
Qed.

(** C1. On a calculator with its inputs present and nothing cached, any two
    queries in a row that return, with no reset in between, make the
    unconditional global fit exactly once: the first query triggers it and
    hands back a result, and the second one hands back a result from the
    cached fit result without fitting again.  The inputs are the dataset,
    the model and the set each query asks for; the parameter set of the
    model is asked for only when both queries are hypothesis tests, since an
    interval query cannot return without it. *)
Theorem global_fit_cached_across_queries
    (q1 q2 : Query) (s0 s1 s2 : State) (r1 r2 : Answer)
    (data : RooAbsData) (pdf : RooAbsPdf) :
  GetData calc = Some data -> GetPdf calc = Some pdf ->
  (q1 = AskInterval \/ q2 = AskInterval -> fPOI calc <> None) ->
  (q1 = AskHypoTest \/ q2 = AskHypoTest -> fNullParams calc <> None) ->
  (q1 = AskHypoTest -> q2 = AskHypoTest -> getParameters pdf data <> None) ->
  fFitResult s0 = None ->
  runQuery GetName calc q1 s0 = Some (r1, s1) ->
  runQuery GetName calc q2 s1 = Some (r2, s2) ->
  globalFits (calls s2) = globalFits (calls s0) + 1 /\
  r1 <> None /\ r2 <> None /\
  globalFits (calls s1) = globalFits (calls s0) + 1 /\
  fFitResult s1 <> None /\
  fFitResult s2 = fFitResult s1 /\
  globalFits (calls s2) = globalFits (calls s1).
Proof.
  intros Hd Hp Hpoi Hnull Hpar Hc H1 H2.
  destruct (query_with_inputs_has_result q1 s0 s1 r1 data pdf Hd Hp
              ltac:(auto) ltac:(auto) H1) as [I1 T1].
  destruct (query_with_inputs_has_result q2 s1 s2 r2 data pdf Hd Hp
              ltac:(auto) ltac:(auto) H2) as [I2 T2].
  pose proof (runQuery_effect _ _ _ _ H1) as (A1 & B1 & C1 & D1).
  pose proof (runQuery_effect _ _ _ _ H2) as (A2 & B2 & C2 & D2).
  assert (Hr1 : r1 <> None).
  { destruct q1; [apply I1; reflexivity|].
    apply T1; [reflexivity|]. left.
    destruct q2; [apply I2; reflexivity|apply Hpar; reflexivity]. }
  pose proof (B1 Hr1) as Hcached.
  assert (Hr2 : r2 <> None).
  { destruct q2; [apply I2; reflexivity|]. apply T2; [reflexivity|]. right. exact Hcached. }
  pose proof (D1 Hc Hr1) as Hfit.
  destruct (fFitResult s1) as [fit|] eqn:E; [|congruence].
  destruct (C2 fit eq_refl) as [Hkeep Hsame].
  repeat split; try assumption; try congruence; try discriminate.
Qed.

(** *** Freezing and restoring the null parameters *)

Lemma restoreNull_other cp l : forall olds h t,
  (forall p, In p l -> find GetName cp (GetName p) <> Some t) ->
  restoreNull GetName cp l olds h t = h t.
Proof.
  induction l as [|p l IH]; intros olds h t Hno; [reflexivity|].
  destruct olds as [|old olds]; [reflexivity|]. cbn [restoreNull].
  destruct (find GetName cp (GetName p)) as [t0|] eqn:Ef.
  - rewrite IH by (intros; apply Hno; right; assumption).
    assert (t <> t0).
    { intros ->. apply (Hno p); [left; reflexivity|assumption]. }
    unfold setConstant, setVal. rewrite !upd_other by assumption. reflexivity.
  - apply IH. intros; apply Hno; right; assumption.
Qed.

Lemma freeze_restore cp l :
  NoDup (map GetName l) ->
  forall h1 olds hf h3,
    freezeNull GetName cp l h1 = (olds, hf) ->
    forall p t, In p l -> find GetName cp (GetName p) = Some t ->
      getVal (restoreNull GetName cp l olds h3 t) = getVal (h1 t) /\
      isConstant (restoreNull GetName cp l olds h3 t) = false.
Proof.
  induction l as [|p0 l IH]; intros Hnd h1 olds hf h3 Hfz p t Hin Hfind;
    [contradiction|].
  inversion Hnd as [|? ? Hp0 Hnd']; subst.
  cbn [freezeNull] in Hfz.
  destruct (find GetName cp (GetName p0)) as [t0|] eqn:Ef0.
  - destruct (freezeNull GetName cp l _) as [olds' hf'] eqn:Hfz'.
    injection Hfz as <- <-. cbn [restoreNull]. rewrite Ef0.
    assert (Hdiff : forall p', In p' l -> find GetName cp (GetName p') <> Some t0).
    { intros p' Hp' Hf'. apply Hp0.
      destruct (find_name _ _ _ _ Ef0) as [<- _].
      destruct (find_name _ _ _ _ Hf') as [-> _]. apply in_map, Hp'. }
    destruct Hin as [->|Hin].
    + assert (t = t0) by congruence. subst t.
      rewrite restoreNull_other by assumption.
      unfold setConstant, setVal. rewrite !upd_same. cbn. auto.
    + destruct (IH Hnd' _ _ _ (setConstant t0 false (setVal t0 (getVal (h1 t0)) h3))
                  Hfz' p t Hin Hfind) as [Hv Hc].
      rewrite Hv, Hc. split; [|reflexivity].
      assert (t <> t0) by (intros ->; apply (Hdiff p Hin Hfind)).
      unfold setConstant, setVal. rewrite !upd_other by assumption. reflexivity.
  - destruct (freezeNull GetName cp l h1) as [olds' hf'] eqn:Hfz'.
    injection Hfz as <- <-. cbn [restoreNull]. rewrite Ef0.
    destruct Hin as [->|Hin]; [congruence|].
    eapply IH; eauto.
Qed.

(** A [GetHypoTest] that hands back nothing has frozen nothing: it leaves
    the state as it found it. *)
Lemma GetHypoTest_empty_leaves_state s s' :
  GetHypoTest GetName calc s = Some (None, s') -> s' = s.
Proof.
  intros H. apply GetHypoTest_inv, hypotest_run_effect in H.
  destruct H as (H & _). auto.
Qed.

(** C3 (amended). After a [GetHypoTest] that hands back a result, every null
    parameter found in the free-parameter set has its constant flag cleared
    and its value back at what it was when it was frozen, i.e. in the store
    as the global-fit step left it ([s1]); with the fit already cached on
    entry that store is the one the call started from.  This holds whichever
    branch computed the conditional likelihood. *)
Theorem null_parameters_restored
    (s s' : State) (htr : HypoTestResult) (nullParams : RooArgSet) :
  GetHypoTest GetName calc s = Some (Some htr, s') ->
  fNullParams calc = Some nullParams ->
  NoDup (map GetName nullParams) ->
  exists data pdf cp0 s1,
    GetData calc = Some data /\ GetPdf calc = Some pdf /\
    getParameters pdf data = Some cp0 /\
    ensureGlobalFit calc s = Some (tt, s1) /\
    (fFitResult s <> None -> s1 = s) /\
    forall p t,
      In p nullParams ->
      find GetName (RemoveConstantParameters (heap s1) cp0) (GetName p) = Some t ->
      getVal (heap s' t) = getVal (heap s1 t) /\
      isConstant (heap s' t) = false /\
      isConstant (heap s1 t) = false.
Proof.
  intros Hrun Hn Hnd.
  pose proof (GetHypoTest_inv _ _ _ Hrun) as R.
  inversion R as [| |data pdf nullParams' cp0 s1 fit olds hf cond h3 newcalls
                     Hd Hp Hn' He Hc Hg cp Hfz Hstep]; subst.
  assert (nullParams' = nullParams) by congruence. subst nullParams'.
  exists data, pdf, cp0, s1. repeat (split; [assumption|]). split.
  - intros Hsome. destruct (fFitResult s) as [f|] eqn:Ef; [|congruence].
    eapply ensured_cache_kept; eauto using ensureGlobalFit_inv.
  - intros p t Hp' Hfind. cbn [heap].
    destruct (freeze_restore cp nullParams Hnd _ _ _ h3 Hfz p t Hp' Hfind) as [Hv Hk].
    split; [exact Hv|]. split; [exact Hk|].
    destruct (find_name _ _ _ _ Hfind) as [_ Hin].
    unfold cp, RemoveConstantParameters in Hin. apply filter_In in Hin.
    destruct Hin as [_ Hin]. apply negb_true_iff in Hin. exact Hin.
Qed.

(** *** The branch without a conditional fit *)

Lemma existVarParams_false (h : Heap) (cp : RooArgSet) :
  existVarParams h cp = false <-> (forall a, In a cp -> isConstant (h a) = true).
Proof.
  unfold existVarParams, RemoveConstantParameters. split.
  - intros H a Ha. destruct (isConstant (h a)) eqn:E; [reflexivity|].
    exfalso. rewrite <- not_true_iff_false in H. apply H.
    apply existsb_exists. exists a. split; [|rewrite E; reflexivity].
    apply filter_In. rewrite E. auto.
  - intros H. apply not_true_iff_false. intros Hex.
    apply existsb_exists in Hex. destruct Hex as (a & Ha & Hn).
    apply filter_In in Ha. destruct Ha as [Ha _].
    rewrite (H a Ha) in Hn. discriminate.
Qed.

Lemma ensureGlobalFit_condFits s u s1 :
  ensureGlobalFit calc s = Some (u, s1) -> condFits (calls s1) = condFits (calls s).
Proof. intros H. apply ensureGlobalFit_inv in H. apply ensured_fits in H. tauto. Qed.

(** C7. In a [GetHypoTest] that hands back a result, if every parameter of
    the free-parameter set is constant once the null parameters are frozen,
    the call makes no conditional fit: it creates the likelihood, evaluates
    it at the frozen values, and that value is the conditional NLL the
    p-value is computed from. *)
Theorem no_free_parameter_no_conditional_fit
    (s s' : State) (htr : HypoTestResult) :
  GetHypoTest GetName calc s = Some (Some htr, s') ->
  exists data pdf nullParams cp0 s1 fit,
    GetData calc = Some data /\ GetPdf calc = Some pdf /\
    fNullParams calc = Some nullParams /\
    getParameters pdf data = Some cp0 /\
    ensureGlobalFit calc s = Some (tt, s1) /\ fFitResult s1 = Some fit /\
    let cp := RemoveConstantParameters (heap s1) cp0 in
    let hf := snd (freezeNull GetName cp nullParams (heap s1)) in
    ((forall a, In a cp -> isConstant (hf a) = true) ->
     condFits (calls s') = condFits (calls s) /\
     calls s' = calls s1 ++ [CallCreateNLL pdf data cp; CallNLLGetVal] /\
     fNullPValue htr = pValue (nllGetVal pdf data cp hf) (minNll fit)).
Proof.
  intros Hrun. apply GetHypoTest_inv in Hrun.
  inversion Hrun as [| |data pdf nullParams cp0 s1 fit olds hf cond h3 newcalls
                        Hd Hp Hn He Hc Hg cp Hfz Hstep]; subst.
  exists data, pdf, nullParams, cp0, s1, fit. repeat (split; [assumption|]).
  intros cp1 hf1 Hall. subst cp1 hf1. unfold cp in *. clear cp.
  rewrite Hfz in *. cbn [snd] in *.
  apply existVarParams_false in Hall.
  destruct Hstep as [fit2 h3 Hex _|Hex]; [congruence|].
  cbn [calls fNullPValue]. repeat split.
  match goal with |- context [?l ++ [?a; ?b]] =>
    change (l ++ [a; b]) with (l ++ [a] ++ [b]) end.
  rewrite app_assoc, !condFits_app. cbn.
  rewrite (ensureGlobalFit_condFits _ _ _ He). lia.
Qed.

(** *** The interval *)

Lemma argName_bestFitOf fitParams arg :
  argName GetName (bestFitOf fitParams arg) = GetName arg.
Proof.
  unfold bestFitOf. destruct (find fitName fitParams (GetName arg)) as [p|] eqn:E.
  - apply (find_name _ _ _ _ E).
  - reflexivity.
Qed.

Lemma bestPOI_map fitParams poi :
  NoDup (map GetName poi) ->
  bestPOI GetName fitParams poi = map (bestFitOf fitParams) poi.
Proof.
  intros Hnd. unfold bestPOI.
  rewrite (fold_left_ext _
             (fun best arg => add (argName GetName) best (bestFitOf fitParams arg))).
  - rewrite (fold_add_fresh (argName GetName) GetName (bestFitOf fitParams)
               (argName_bestFitOf fitParams) poi [] Hnd); [reflexivity|].
    intros b _ [].
  - intros best arg. unfold bestFitOf. rewrite find_addAll. cbn.
    destruct (find fitName fitParams (GetName arg)); reflexivity.
Qed.

Lemma find_some_of_name {A : Type} (name : A -> string) (l : list A) (n : string) :
  In n (map name l) -> exists x, find name l n = Some x.
Proof.
  intros Hin. destruct (find name l n) as [x|] eqn:E; [eauto|].
  exfalso. exact (find_none name _ _ E Hin).
Qed.

(** C6. The interval a successful [GetInterval] hands back has confidence
    level [1 - fSize] (0.95 for a size of 0.05), and its best-fit set lists,
    for each parameter of interest in turn, the fitted parameter of the
    cached fit result when one of that name floated in the fit and the
    caller's own object otherwise. *)
Theorem interval_confidence_and_best_fit
    (s s' : State) (iv : LikelihoodInterval) (poi : RooArgSet) :
  GetInterval GetName calc s = Some (Some iv, s') ->
  fPOI calc = Some poi ->
  NoDup (map GetName poi) ->
  exists fit,
    fFitResult s' = Some fit /\
    intervalConfidenceLevel iv = (1 - fSize calc)%float /\
    (fSize calc = 0.05%float -> intervalConfidenceLevel iv = 0.95%float) /\
    intervalBestPOI iv = map (bestFitOf (floatParsFinal fit)) poi /\
    forall arg, In arg poi ->
      (In (GetName arg) (map fitName (floatParsFinal fit)) ->
       exists p, In p (floatParsFinal fit) /\ fitName p = GetName arg /\
                 In (FitArg p) (intervalBestPOI iv)) /\
      (~ In (GetName arg) (map fitName (floatParsFinal fit)) ->
       In (VarArg arg) (intervalBestPOI iv)).
Proof.
  intros Hrun Hpoi Hnd. apply GetInterval_inv in Hrun.
  inversion Hrun as [|data pdf poi' cp0 s1 fit v h2 Hd Hp Hpoi' Hg cp He Hc Hv];
    subst.
  assert (poi' = poi) by congruence. subst poi'.
  exists fit. cbn [fFitResult intervalConfidenceLevel intervalBestPOI].
  rewrite (bestPOI_map _ _ Hnd).
  split; [reflexivity|]. split; [reflexivity|].
  split; [intros ->; reflexivity|]. split; [reflexivity|].
  intros arg Harg. split.
  - intros Hin. destruct (find_some_of_name _ _ _ Hin) as [p Hf].
    destruct (find_name _ _ _ _ Hf) as [Hn Hp'].
    exists p. repeat split; auto.
    apply in_map_iff. exists arg. unfold bestFitOf. rewrite Hf. auto.
  - intros Hnot. apply in_map_iff. exists arg. split; [|assumption].
    unfold bestFitOf.
    destruct (find fitName (floatParsFinal fit) (GetName arg)) as [p|] eqn:Hf;
      [|reflexivity].
    destruct (find_name _ _ _ _ Hf) as [Hn Hp']. exfalso. apply Hnot.
    rewrite <- Hn. apply in_map, Hp'.
Qed.

(** *** Seeding the parameters of interest *)

Lemma seedPOI_other poi h fp a :
  GetName a <> fitName fp -> seedPOI GetName poi h fp a = h a.
Proof.
  intros Hne. unfold seedPOI.
  destruct (find GetName poi (fitName fp)) as [par|] eqn:E; [|reflexivity].
  destruct (find_name _ _ _ _ E) as [Hn _].
  assert (a <> par) by congruence.
  unfold setError, setVal. rewrite !upd_other by assumption. reflexivity.
Qed.

Lemma seed_fold_other poi l : forall h a,
  (forall fp, In fp l -> GetName a <> fitName fp) ->
  fold_left (seedPOI GetName poi) l h a = h a.
Proof.
  induction l as [|fp l IH]; intros h a Hne; cbn; [reflexivity|].
  rewrite IH by (intros; apply Hne; right; assumption).
  apply seedPOI_other, Hne. left; reflexivity.
Qed.

Lemma seed_fold_hit poi l :
  NoDup (map fitName l) ->
  forall h fp par,
    In fp l -> find GetName poi (fitName fp) = Some par ->
    getVal (fold_left (seedPOI GetName poi) l h par) = fitVal fp /\
    getError (fold_left (seedPOI GetName poi) l h par) = fitError fp.
Proof.
  induction l as [|fp0 l IH]; intros Hnd h fp par Hin Hf; [contradiction|].
  inversion Hnd as [|? ? Hfp0 Hnd']; subst. cbn [fold_left].
  destruct Hin as [->|Hin].
  - rewrite seed_fold_other.
    + unfold seedPOI. rewrite Hf. unfold setError, setVal.
      rewrite !upd_same. cbn. auto.
    + intros fp' Hfp' Heq. apply Hfp0.
      destruct (find_name _ _ _ _ Hf) as [<- _]. rewrite Heq. apply in_map, Hfp'.
  - apply IH; assumption.
Qed.

(** C9. A successful [GetInterval] writes, into every parameter of interest
    whose name floated in the global fit, the fitted value and the fitted
    error, and nothing in the call puts the old ones back: the store it
    leaves behind is the seeded store as the evaluation of the profile hands
    it on, so wherever that evaluation leaves a parameter of interest alone
    the caller finds the fitted value and error in it. *)
Theorem interval_overwrites_poi
    (s s' : State) (iv : LikelihoodInterval) (poi : RooArgSet)
    (fit : RooFitResult) :
  GetInterval GetName calc s = Some (Some iv, s') ->
  fPOI calc = Some poi ->
  NoDup (map GetName poi) ->
  fFitResult s' = Some fit ->
  NoDup (map fitName (floatParsFinal fit)) ->
  exists seeded : Heap,
    heap s' = snd (profileGetVal (intervalProfile iv) seeded) /\
    forall par fp,
      In par poi -> In fp (floatParsFinal fit) -> fitName fp = GetName par ->
      getVal (seeded par) = fitVal fp /\ getError (seeded par) = fitError fp /\
      (snd (profileGetVal (intervalProfile iv) seeded) par = seeded par ->
       getVal (heap s' par) = fitVal fp /\ getError (heap s' par) = fitError fp).
Proof.
  intros Hrun Hpoi Hnd Hfit Hndf.
  apply GetInterval_inv in Hrun.
  inversion Hrun as [|data pdf poi' cp0 s1 fit' v h2 Hd Hp Hpoi' Hg cp He Hc Hv];
    subst.
  assert (poi' = poi) by congruence. subst poi'.
  cbn [fFitResult heap intervalProfile] in *.
  assert (fit' = fit) by congruence. subst fit'.
  exists (fold_left (seedPOI GetName poi) (floatParsFinal fit) (heap s1)).
  rewrite Hv. cbn [snd]. split; [reflexivity|].
  intros par fp Hpar Hfp Hname.
  assert (Hseed : getVal (fold_left (seedPOI GetName poi) (floatParsFinal fit)
                            (heap s1) par) = fitVal fp /\
                  getError (fold_left (seedPOI GetName poi) (floatParsFinal fit)
                              (heap s1) par) = fitError fp).
  { apply seed_fold_hit; auto. rewrite Hname. apply find_self; assumption. }
  destruct Hseed as [Hval Herr]. split; [assumption|]. split; [assumption|].
  intros Hkeep. rewrite Hkeep. split; assumption.
Qed.

End Facts.

(** ** The cache, the failures and the footprint of the queries *)

Section Queries.
Context (GetName : addr -> string) {engine : FittingEngine} (calc : Calculator).

(** *** The calls, written out *)

Lemma DoGlobalFit_eq (s : State) :
  DoGlobalFit calc s =
  match GetData calc, GetPdf calc with
  | Some data, Some pdf =>
      match getParameters pdf data with
      | None => Some (tt, mkState None (heap s) (calls s))
      | Some cp0 =>
          let cp := RemoveConstantParameters (heap s) cp0 in
          match fitTo pdf data cp globalFitOptions (heap s) with
          | (Some fit, h') =>
              Some (tt, mkState (Some fit) h'
                          (calls s ++ [CallFitTo pdf data cp globalFitOptions]))
          | (None, _) => None
          end
      end
  | _, _ => Some (tt, mkState None (heap s) (calls s))
  end.
Proof.
  unfold DoGlobalFit, DoReset, bind, setFitResult, getHeap, callFitTo, deref, ret, crash.
  destruct (GetData calc) as [data|]; [|reflexivity].
  destruct (GetPdf calc) as [pdf|]; [|reflexivity].
  destruct (getParameters pdf data) as [cp0|]; [|reflexivity].
  cbn [heap calls fFitResult].
  destruct (fitTo pdf data _ globalFitOptions (heap s)) as [[fit|] h']; reflexivity.
Qed.

Lemma ensureGlobalFit_eq (s : State) :
  ensureGlobalFit calc s =
  match fFitResult s with
  | Some _ => Some (tt, s)
  | None => DoGlobalFit calc s
  end.
Proof.
  unfold ensureGlobalFit, bind, getFitResult, ret.
  destruct (fFitResult s); reflexivity.
Qed.

Lemma GetInterval_eq (s : State) data pdf poi :
  GetData calc = Some data -> GetPdf calc = Some pdf -> fPOI calc = Some poi ->
  GetInterval GetName calc s =
  match getParameters pdf data with
  | None => None
  | Some cp0 =>
      let cp := RemoveConstantParameters (heap s) cp0 in
      let profile := mkProfile pdf data cp poi in
      match ensureGlobalFit calc
              (mkState (fFitResult s) (heap s)
                 (calls s ++ [CallCreateNLL pdf data cp; CallCreateProfile poi])) with
      | None => None
      | Some (_, s1) =>
          match fFitResult s1 with
          | None => Some (None, s1)
          | Some fit =>
              Some (Some (mkInterval ("LikelihoodInterval_" ++ calcName calc) profile
                            (bestPOI GetName (floatParsFinal fit) poi)
                            (1 - fSize calc)%float),
                    mkState (Some fit)
                      (snd (profileGetVal profile
                              (fold_left (seedPOI GetName poi) (floatParsFinal fit)
                                 (heap s1))))
                      (calls s1 ++ [CallProfileGetVal]))
          end
      end
  end.
Proof.
  intros Hd Hp Hpoi. unfold GetInterval. rewrite Hd, Hp, Hpoi.
  unfold bind at 1, deref at 1.
  destruct (getParameters pdf data) as [cp0|]; [|reflexivity].
  unfold ret at 1. unfold bind at 1, getHeap at 1.
  unfold bind at 1, logCall at 1. unfold bind at 1, logCall at 1.
  cbn [heap calls fFitResult]. rewrite <- app_assoc. cbn [app].
  unfold bind at 1.
  destruct (ensureGlobalFit calc _) as [[[] s1]|]; [|reflexivity].
  unfold bind at 1, getFitResult at 1.
  destruct (fFitResult s1) as [fit|] eqn:Hc; [|reflexivity].
  unfold bind at 1, modifyHeap at 1. unfold bind at 1, callProfileGetVal at 1.
  cbn [heap calls fFitResult].
  destruct (profileGetVal _ _) as [v h2]. rewrite Hc. reflexivity.
Qed.

Lemma GetHypoTest_eq (s : State) data pdf nullParams :
  GetData calc = Some data -> GetPdf calc = Some pdf ->
  fNullParams calc = Some nullParams ->
  GetHypoTest GetName calc s =
  match ensureGlobalFit calc s with
  | None => None
  | Some (_, s1) =>
      match fFitResult s1 with
      | None => Some (None, s1)
      | Some fit =>
          match getParameters pdf data with
          | None => None
          | Some cp0 =>
              let cp := RemoveConstantParameters (heap s1) cp0 in
              let olds := fst (freezeNull GetName cp nullParams (heap s1)) in
              let hf := snd (freezeNull GetName cp nullParams (heap s1)) in
              let name := ("ProfileLRHypoTestResult_" ++ calcName calc)%string in
              if existVarParams hf cp then
                match fitTo pdf data cp condFitOptions hf with
                | (Some fit2, h3) =>
                    Some (Some (mkHTR name (pValue (minNll fit2) (minNll fit)) 0%float),
                          mkState (Some fit) (restoreNull GetName cp nullParams olds h3)
                            (calls s1 ++ [CallFitTo pdf data cp condFitOptions]))
                | (None, _) => None
                end
              else
                Some (Some (mkHTR name (pValue (nllGetVal pdf data cp hf) (minNll fit))
                              0%float),
                      mkState (Some fit) (restoreNull GetName cp nullParams olds hf)
                        (calls s1 ++ [CallCreateNLL pdf data cp; CallNLLGetVal]))
          end
      end
  end.
Proof.
  intros Hd Hp Hn. unfold GetHypoTest. rewrite Hd, Hp, Hn.
  unfold bind at 1.
  destruct (ensureGlobalFit calc s) as [[[] s1]|]; [|reflexivity].
  unfold bind at 1, getFitResult at 1.
  destruct (fFitResult s1) as [fit|] eqn:Hc; [|reflexivity].
  unfold hypoTestBody. unfold bind at 1, deref at 1.
  destruct (getParameters pdf data) as [cp0|]; [|reflexivity].
  unfold ret at 1. unfold bind at 1, getHeap at 1. unfold bind at 1.
  rewrite ensureGlobalFit_eq, Hc.
  unfold bind at 1, getFitResult at 1. rewrite Hc.
  unfold bind at 1, deref at 1, ret at 1. unfold bind at 1, getHeap at 1.
  cbv zeta.
  destruct (freezeNull GetName _ nullParams (heap s1)) as [olds hf].
  cbn [fst snd].
  unfold bind at 1, modifyHeap at 1. unfold bind at 1.
  destruct (existVarParams hf _).
  - unfold bind at 1, callFitTo at 1. cbn [heap calls fFitResult].
    destruct (fitTo pdf data _ condFitOptions hf) as [[fit2|] h3]; [|reflexivity].
    unfold bind at 1, deref at 1, ret at 1. unfold ret at 1.
    unfold bind at 1, modifyHeap at 1. unfold ret.
    cbn [heap calls fFitResult]. rewrite Hc. reflexivity.
  - unfold bind at 1, logCall at 1. unfold callNLLGetVal.
    cbn [heap calls fFitResult].
    unfold bind at 1, modifyHeap at 1. unfold ret.
    cbn [heap calls fFitResult]. rewrite Hc, <- app_assoc. reflexivity.
Qed.

(** *** The cache *)

(** X2. [DoGlobalFit] never keeps what was cached before the call.  When it
    returns, either the cache is empty, the store and the engine were left
    alone and an input or the parameter set was missing, or the cache holds
    the result of the one fit just made, with the options of the global fit,
    over the parameters that were not constant when it was called. *)
Theorem DoGlobalFit_replaces_cache (s s' : State) :
  DoGlobalFit calc s = Some (tt, s') ->
  match fFitResult s' with
  | None =>
      heap s' = heap s /\ calls s' = calls s /\
      (GetData calc = None \/ GetPdf calc = None \/
       exists data pdf, GetData calc = Some data /\ GetPdf calc = Some pdf /\
                        getParameters pdf data = None)
  | Some fit =>
      exists data pdf cp0,
        GetData calc = Some data /\ GetPdf calc = Some pdf /\
        getParameters pdf data = Some cp0 /\
        let cp := RemoveConstantParameters (heap s) cp0 in
        fitTo pdf data cp globalFitOptions (heap s) = (Some fit, heap s') /\
        calls s' = calls s ++ [CallFitTo pdf data cp globalFitOptions] /\
        globalFits (calls s') = globalFits (calls s) + 1 /\
        forall a, In a cp -> In a cp0 /\ isConstant (heap s a) = false
  end.
Proof.
  rewrite DoGlobalFit_eq.
  destruct (GetData calc) as [data|] eqn:Hd;
    [|intros [= <-]; cbn; auto].
  destruct (GetPdf calc) as [pdf|] eqn:Hp;
    [|intros [= <-]; cbn; auto].
  destruct (getParameters pdf data) as [cp0|] eqn:Hg;
    [|intros [= <-]; cbn; eauto 10].
  cbv zeta.
  destruct (fitTo pdf data _ globalFitOptions (heap s)) as [[fit|] h'] eqn:Hf;
    [|discriminate].
  intros [= <-]. cbn [fFitResult heap calls].
  exists data, pdf, cp0. do 2 (split; [reflexivity|]). split; [exact Hg|].
  cbv zeta. rewrite Hf. do 2 (split; [reflexivity|]). split.
  - rewrite globalFits_app. reflexivity.
  - intros a Ha. unfold RemoveConstantParameters in Ha.
    apply filter_In in Ha. destruct Ha as [Ha Hc].
    apply negb_true_iff in Hc. auto.
Qed.

(** X1. [DoReset] empties the cache and touches nothing else, and the query
    that follows it fits again: a query that hands back a result after a
    reset has made one more unconditional fit, so two such queries around a
    reset make two where two in a row make one. *)
Theorem reset_forces_new_global_fit
    (q1 q2 : Query) (s0 s1 s2 s3 : State) (r1 r2 : Answer) :
  fFitResult s0 = None ->
  runQuery GetName calc q1 s0 = Some (r1, s1) ->
  DoReset s1 = Some (tt, s2) ->
  runQuery GetName calc q2 s2 = Some (r2, s3) ->
  heap s2 = heap s1 /\ calls s2 = calls s1 /\ fFitResult s2 = None /\
  (r2 <> None ->
   fFitResult s3 <> None /\ globalFits (calls s3) = globalFits (calls s1) + 1) /\
  (r1 <> None -> r2 <> None ->
   globalFits (calls s3) = globalFits (calls s0) + 2).
Proof.
  intros Hc H1 Hr H2. unfold DoReset, setFitResult in Hr. injection Hr as <-.
  cbn [heap calls fFitResult].
  apply runQuery_effect in H1. apply runQuery_effect in H2.
  destruct H1 as (_ & _ & _ & D1), H2 as (_ & B2 & _ & D2).
  cbn [heap calls fFitResult] in *.
  repeat (split; [reflexivity|]). split.
  - intros Hr2. split; [apply B2, Hr2|apply D2; [reflexivity|exact Hr2]].
  - intros Hr1 Hr2. rewrite D2, D1 by auto. lia.
Qed.

(** *** The calls that do not return *)

Lemma ensureGlobalFit_fails_iff (s : State) :
  ensureGlobalFit calc s = None <->
  fFitResult s = None /\
  exists data pdf cp0,
    GetData calc = Some data /\ GetPdf calc = Some pdf /\
    getParameters pdf data = Some cp0 /\
    fst (fitTo pdf data (RemoveConstantParameters (heap s) cp0) globalFitOptions
           (heap s)) = None.
Proof.
  rewrite ensureGlobalFit_eq, DoGlobalFit_eq. split.
  - destruct (fFitResult s) as [f|]; [discriminate|].
    destruct (GetData calc) as [data|]; [|discriminate].
    destruct (GetPdf calc) as [pdf|]; [|discriminate].
    destruct (getParameters pdf data) as [cp0|] eqn:Hg; [|discriminate].
    cbv zeta.
    destruct (fitTo pdf data _ globalFitOptions (heap s)) as [[fit|] h'] eqn:Hf;
      [discriminate|].
    intros _. split; [reflexivity|]. exists data, pdf, cp0.
    rewrite Hf. auto.
  - intros (-> & data & pdf & cp0 & -> & -> & -> & Hf). cbv zeta.
    destruct (fitTo pdf data _ globalFitOptions (heap s)) as [[fit|] h'];
      [discriminate Hf|reflexivity].
Qed.

(** X3. [GetInterval] fails to return in two situations and in no other:
    all three inputs are present and either the model hands back no
    parameter set, or nothing is cached and the global fit hands back no
    result. *)
Theorem GetInterval_fails_iff (s : State) :
  GetInterval GetName calc s = None <->
  exists data pdf poi,
    GetData calc = Some data /\ GetPdf calc = Some pdf /\ fPOI calc = Some poi /\
    (getParameters pdf data = None \/
     exists cp0,
       getParameters pdf data = Some cp0 /\ fFitResult s = None /\
       fst (fitTo pdf data (RemoveConstantParameters (heap s) cp0) globalFitOptions
              (heap s)) = None).
Proof.
  split.
  - intros H.
    destruct (GetData calc) as [data|] eqn:Hd;
      [|unfold GetInterval in H; rewrite Hd in H; discriminate H].
    destruct (GetPdf calc) as [pdf|] eqn:Hp;
      [|unfold GetInterval in H; rewrite Hd, Hp in H; discriminate H].
    destruct (fPOI calc) as [poi|] eqn:Hpoi;
      [|unfold GetInterval in H; rewrite Hd, Hp, Hpoi in H; discriminate H].
    exists data, pdf, poi. repeat (split; [reflexivity|]).
    rewrite (GetInterval_eq s data pdf poi Hd Hp Hpoi) in H.
    destruct (getParameters pdf data) as [cp0|] eqn:Hg; [right|left; reflexivity].
    exists cp0. split; [reflexivity|]. cbv zeta in H.
    destruct (ensureGlobalFit calc _) as [[[] s1]|] eqn:He.
    + destruct (fFitResult s1); discriminate H.
    + apply ensureGlobalFit_fails_iff in He. cbn [fFitResult heap] in He.
      destruct He as (Hc & data' & pdf' & cp0' & Hd' & Hp' & Hg' & Hf).
      assert (data' = data) by congruence. assert (pdf' = pdf) by congruence.
      subst data' pdf'. assert (cp0' = cp0) by congruence. subst cp0'. auto.
  - intros (data & pdf & poi & Hd & Hp & Hpoi & H).
    rewrite (GetInterval_eq s data pdf poi Hd Hp Hpoi).
    destruct H as [-> | (cp0 & Hg & Hc & Hf)]; [reflexivity|].
    rewrite Hg. cbv zeta.
    destruct (ensureGlobalFit calc _) as [[[] s1]|] eqn:He; [|reflexivity].
    exfalso.
    assert (Hnone : ensureGlobalFit calc
              (mkState (fFitResult s) (heap s)
                 (calls s ++ [CallCreateNLL pdf data
                                (RemoveConstantParameters (heap s) cp0);
                              CallCreateProfile poi])) = None).
    { apply ensureGlobalFit_fails_iff. cbn [fFitResult heap].
      split; [exact Hc|]. exists data, pdf. eauto 10. }
    congruence.
Qed.

(** X4. With the likelihood calls of the engine taken as returning,
    [GetHypoTest] fails to return in three situations and in no other,
    all with the dataset, the model and the null set present: nothing is
    cached and the global fit hands back no result; a result is cached but
    the model hands back no parameter set; or a parameter is left free once
    the null parameters are frozen and the conditional fit hands back no
    result. *)
Theorem GetHypoTest_fails_iff (s : State) :
  GetHypoTest GetName calc s = None <->
  exists data pdf nullParams,
    GetData calc = Some data /\ GetPdf calc = Some pdf /\
    fNullParams calc = Some nullParams /\
    ((exists cp0,
        getParameters pdf data = Some cp0 /\ fFitResult s = None /\
        fst (fitTo pdf data (RemoveConstantParameters (heap s) cp0) globalFitOptions
               (heap s)) = None) \/
     (fFitResult s <> None /\ getParameters pdf data = None) \/
     (exists cp0 s1,
        getParameters pdf data = Some cp0 /\
        ensureGlobalFit calc s = Some (tt, s1) /\
        let cp := RemoveConstantParameters (heap s1) cp0 in
        let hf := snd (freezeNull GetName cp nullParams (heap s1)) in
        existVarParams hf cp = true /\
        fst (fitTo pdf data cp condFitOptions hf) = None)).
Proof.
  split.
  - intros H.
    destruct (GetData calc) as [data|] eqn:Hd;
      [|unfold GetHypoTest in H; rewrite Hd in H; discriminate H].
    destruct (GetPdf calc) as [pdf|] eqn:Hp;
      [|unfold GetHypoTest in H; rewrite Hd, Hp in H; discriminate H].
    destruct (fNullParams calc) as [nullParams|] eqn:Hn;
      [|unfold GetHypoTest in H; rewrite Hd, Hp, Hn in H; discriminate H].
    exists data, pdf, nullParams. repeat (split; [reflexivity|]).
    rewrite (GetHypoTest_eq s data pdf nullParams Hd Hp Hn) in H.
    destruct (ensureGlobalFit calc s) as [[[] s1]|] eqn:He.
    + destruct (fFitResult s1) as [fit|] eqn:Hc; [|discriminate H].
      destruct (getParameters pdf data) as [cp0|] eqn:Hg.
      * right. right. exists cp0, s1. split; [reflexivity|]. split; [reflexivity|].
        cbv zeta in H |- *.
        destruct (existVarParams _ _); [|discriminate H]. split; [reflexivity|].
        destruct (fitTo pdf data _ condFitOptions _) as [[fit2|] h3];
          [discriminate H|reflexivity].
      * right. left. split; [|reflexivity]. intros Hnone.
        rewrite ensureGlobalFit_eq, DoGlobalFit_eq, Hnone, Hd, Hp, Hg in He.
        injection He as <-. discriminate Hc.
    + left. apply ensureGlobalFit_fails_iff in He.
      destruct He as (Hc & data' & pdf' & cp0 & Hd' & Hp' & Hg & Hf).
      assert (data' = data) by congruence. assert (pdf' = pdf) by congruence.
      subst data' pdf'. eauto.
  - intros (data & pdf & nullParams & Hd & Hp & Hn & H).
    rewrite (GetHypoTest_eq s data pdf nullParams Hd Hp Hn).
    destruct H as [(cp0 & Hg & Hc & Hf)|[(Hc & Hg)|(cp0 & s1 & Hg & He & H)]].
    + assert (He : ensureGlobalFit calc s = None).
      { apply ensureGlobalFit_fails_iff. split; [exact Hc|]. exists data, pdf. eauto 10. }
      rewrite He. reflexivity.
    + rewrite ensureGlobalFit_eq.
      destruct (fFitResult s) as [fit|] eqn:Hc'; [|congruence].
      rewrite Hc', Hg. reflexivity.
    + rewrite He, Hg. cbv zeta in H |- *. destruct H as [Hex Hf].
      assert (Hc : fFitResult s1 <> None).
      { rewrite ensureGlobalFit_eq in He.
        destruct (fFitResult s) as [fit|] eqn:Hc'.
        - injection He as <-. congruence.
        - rewrite DoGlobalFit_eq, Hd, Hp, Hg in He. cbv zeta in He.
          destruct (fitTo pdf data _ globalFitOptions (heap s)) as [[fit|] h'];
            [|discriminate He].
          injection He as <-. discriminate. }
      destruct (fFitResult s1) as [fit|]; [|congruence].
      rewrite Hex.
      destruct (fitTo pdf data _ condFitOptions _) as [[fit2|] h3];
        [discriminate Hf|reflexivity].
Qed.

(** *** The conditional step *)

Lemma condFits_concat (l l' : list EngineCall) :
  condFits (l ++ l') = condFits l + condFits l'.
Proof. unfold condFits. rewrite filter_app, length_app. reflexivity. Qed.

(** X5. In a [GetHypoTest] that hands back a result, if a parameter of the
    free-parameter set is still not constant once the null parameters are
    frozen, the call makes exactly one conditional fit, with the options of
    the conditional fit, on the frozen store; it creates and evaluates no
    likelihood of its own, the minimum of that fit is the conditional NLL of
    the p-value, and the values are put back into the store the fit left. *)
Theorem free_parameter_one_conditional_fit
    (s s' : State) (htr : HypoTestResult) :
  GetHypoTest GetName calc s = Some (Some htr, s') ->
  exists data pdf nullParams cp0 s1 fit,
    GetData calc = Some data /\ GetPdf calc = Some pdf /\
    fNullParams calc = Some nullParams /\
    getParameters pdf data = Some cp0 /\
    ensureGlobalFit calc s = Some (tt, s1) /\ fFitResult s1 = Some fit /\
    let cp := RemoveConstantParameters (heap s1) cp0 in
    let olds := fst (freezeNull GetName cp nullParams (heap s1)) in
    let hf := snd (freezeNull GetName cp nullParams (heap s1)) in
    forall a, In a cp -> isConstant (hf a) = false ->
      exists fit2 h3,
        fitTo pdf data cp condFitOptions hf = (Some fit2, h3) /\
        calls s' = calls s1 ++ [CallFitTo pdf data cp condFitOptions] /\
        condFits (calls s') = condFits (calls s) + 1 /\
        fNullPValue htr = pValue (minNll fit2) (minNll fit) /\
        heap s' = restoreNull GetName cp nullParams olds h3.
Proof.
  intros Hrun. apply GetHypoTest_inv in Hrun.
  inversion Hrun as [| |data pdf nullParams cp0 s1 fit olds hf cond h3 newcalls
                        Hd Hp Hn He Hc Hg cp Hfz Hstep]; subst.
  exists data, pdf, nullParams, cp0, s1, fit. repeat (split; [assumption|]).
  cbv zeta. fold cp. rewrite Hfz. cbn [fst snd]. intros a Ha Hfree.
  destruct Hstep as [fit2 h3 Hex Hf2|Hex].
  - exists fit2, h3. split; [exact Hf2|]. cbn [calls heap fNullPValue].
    split; [reflexivity|]. split; [|split; reflexivity].
    rewrite condFits_app. cbn.
    rewrite (ensureGlobalFit_condFits _ _ _ _ He). reflexivity.
  - exfalso. rewrite (proj1 (existVarParams_false hf cp) Hex a Ha) in Hfree.
    discriminate Hfree.
Qed.

(** *** Freezing, parameter by parameter *)

Lemma freezeNull_other cp l : forall h a,
  (forall p, In p l -> find GetName cp (GetName p) <> Some a) ->
  snd (freezeNull GetName cp l h) a = h a.
Proof.
  induction l as [|p l IH]; intros h a Hno; [reflexivity|].
  cbn [freezeNull].
  destruct (find GetName cp (GetName p)) as [t|] eqn:Ef.
  - destruct (freezeNull GetName cp l _) as [olds hf] eqn:Hfz. cbn [snd].
    change hf with (snd (olds, hf)). rewrite <- Hfz.
    rewrite IH by (intros; apply Hno; right; assumption).
    assert (a <> t).
    { intros ->. apply (Hno p); [left; reflexivity|assumption]. }
    unfold setConstant, setVal. rewrite !upd_other by assumption. reflexivity.
  - destruct (freezeNull GetName cp l h) as [olds hf] eqn:Hfz. cbn [snd].
    change hf with (snd (olds, hf)). rewrite <- Hfz.
    apply IH. intros; apply Hno; right; assumption.
Qed.

Lemma freezeNull_error cp l : forall h a,
  getError (snd (freezeNull GetName cp l h) a) = getError (h a).
Proof.
  induction l as [|p l IH]; intros h a; [reflexivity|].
  cbn [freezeNull].
  destruct (find GetName cp (GetName p)) as [t|] eqn:Ef.
  - destruct (freezeNull GetName cp l _) as [olds hf] eqn:Hfz. cbn [snd].
    change hf with (snd (olds, hf)). rewrite <- Hfz, IH.
    unfold setConstant, setVal, upd.
    destruct (Nat.eqb a t) eqn:E; [|reflexivity].
    apply Nat.eqb_eq in E. subst a. cbn. rewrite Nat.eqb_refl. reflexivity.
  - destruct (freezeNull GetName cp l h) as [olds hf] eqn:Hfz. cbn [snd].
    change hf with (snd (olds, hf)). rewrite <- Hfz. apply IH.
Qed.

Lemma restoreNull_error cp l : forall olds h a,
  getError (restoreNull GetName cp l olds h a) = getError (h a).
Proof.
  induction l as [|p l IH]; intros olds h a; [reflexivity|].
  destruct olds as [|old olds]; [reflexivity|]. cbn [restoreNull].
  destruct (find GetName cp (GetName p)) as [t|] eqn:Ef; [|apply IH].
  rewrite IH. unfold setConstant, setVal, upd.
  destruct (Nat.eqb a t) eqn:E; [|reflexivity].
  apply Nat.eqb_eq in E. subst a. cbn. rewrite Nat.eqb_refl. reflexivity.
Qed.

Lemma freezeNull_hit cp l :
  NoDup (map GetName l) ->
  forall h p t,
    In p l -> find GetName cp (GetName p) = Some t ->
    isConstant (snd (freezeNull GetName cp l h) t) = true /\
    getVal (snd (freezeNull GetName cp l h) t) = getVal (h p).
Proof.
  induction l as [|p0 l IH]; intros Hnd h p t Hin Hfind; [contradiction|].
  inversion Hnd as [|? ? Hp0 Hnd']; subst.
  cbn [freezeNull].
  destruct (find GetName cp (GetName p0)) as [t0|] eqn:Ef0.
  - destruct (freezeNull GetName cp l _) as [olds hf] eqn:Hfz. cbn [snd].
    change hf with (snd (olds, hf)). rewrite <- Hfz.
    destruct (find_name _ _ _ _ Ef0) as [Hn0 _].
    assert (Hdiff : forall p', In p' l -> find GetName cp (GetName p') <> Some t0).
    { intros p' Hp' Hf'. apply Hp0.
      destruct (find_name _ _ _ _ Hf') as [Hn' _].
      rewrite <- Hn0, Hn'. apply in_map, Hp'. }
    destruct Hin as [->|Hin].
    + assert (t = t0) by congruence. subst t.
      rewrite freezeNull_other by assumption.
      unfold setConstant, setVal. rewrite !upd_same. cbn. auto.
    + destruct (IH Hnd' (setConstant t0 true (setVal t0 (getVal (h p0)) h)) p t
                  Hin Hfind) as [Hk Hv].
      split; [exact Hk|]. rewrite Hv.
      assert (p <> t0).
      { intros ->. apply Hp0. rewrite <- Hn0. apply in_map, Hin. }
      unfold setConstant, setVal. rewrite !upd_other by assumption. reflexivity.
  - destruct (freezeNull GetName cp l h) as [olds hf] eqn:Hfz. cbn [snd].
    change hf with (snd (olds, hf)). rewrite <- Hfz.
    destruct Hin as [->|Hin]; [congruence|].
    apply IH; assumption.
Qed.

Lemma freezeNull_unmatched cp l : forall h,
  (forall p, In p l -> find GetName cp (GetName p) = None) ->
  snd (freezeNull GetName cp l h) = h.
Proof.
  induction l as [|p l IH]; intros h Hno; [reflexivity|].
  cbn [freezeNull]. rewrite (Hno p) by (left; reflexivity).
  destruct (freezeNull GetName cp l h) as [olds hf] eqn:Hfz. cbn [snd].
  change hf with (snd (olds, hf)). rewrite <- Hfz.
  apply IH. intros; apply Hno; right; assumption.
Qed.

Lemma restoreNull_unmatched cp l : forall olds h,
  (forall p, In p l -> find GetName cp (GetName p) = None) ->
  restoreNull GetName cp l olds h = h.
Proof.
  induction l as [|p l IH]; intros olds h Hno; [reflexivity|].
  destruct olds as [|old olds]; [reflexivity|]. cbn [restoreNull].
  rewrite (Hno p) by (left; reflexivity).
  apply IH. intros; apply Hno; right; assumption.
Qed.

Lemma conditionalNLL_of_step pdf data cp hf cond h3 newcalls :
  cond_step pdf data cp hf cond h3 newcalls ->
  conditionalNLL pdf data cp hf = Some cond.
Proof.
  unfold conditionalNLL. intros [fit2 h3' Hex Hf2|Hex]; rewrite Hex; [rewrite Hf2|];
    reflexivity.
Qed.

(** X6. The conditional NLL of a [GetHypoTest] that hands back a result is
    computed on a store in which every null parameter found in the
    free-parameter set is constant and carries the value of the null
    parameter, with its error as it was, and in which every object that is
    not such a parameter is exactly as the global-fit step left it. *)
Theorem conditional_step_sees_null_values
    (s s' : State) (htr : HypoTestResult) (nullParams : RooArgSet) :
  GetHypoTest GetName calc s = Some (Some htr, s') ->
  fNullParams calc = Some nullParams ->
  NoDup (map GetName nullParams) ->
  exists data pdf cp0 s1 fit NLLatCondMLE,
    GetData calc = Some data /\ GetPdf calc = Some pdf /\
    getParameters pdf data = Some cp0 /\
    ensureGlobalFit calc s = Some (tt, s1) /\ fFitResult s1 = Some fit /\
    let cp := RemoveConstantParameters (heap s1) cp0 in
    let hf := snd (freezeNull GetName cp nullParams (heap s1)) in
    conditionalNLL pdf data cp hf = Some NLLatCondMLE /\
    fNullPValue htr = pValue NLLatCondMLE (minNll fit) /\
    (forall p t,
       In p nullParams -> find GetName cp (GetName p) = Some t ->
       isConstant (hf t) = true /\ getVal (hf t) = getVal (heap s1 p) /\
       getError (hf t) = getError (heap s1 t)) /\
    (forall a,
       (forall p, In p nullParams -> find GetName cp (GetName p) <> Some a) ->
       hf a = heap s1 a).
Proof.
  intros Hrun Hn Hnd. apply GetHypoTest_inv in Hrun.
  inversion Hrun as [| |data pdf nullParams' cp0 s1 fit olds hf cond h3 newcalls
                        Hd Hp Hn' He Hc Hg cp Hfz Hstep]; subst.
  assert (nullParams' = nullParams) by congruence. subst nullParams'.
  exists data, pdf, cp0, s1, fit, cond. repeat (split; [assumption|]).
  cbv zeta. fold cp. rewrite Hfz. cbn [snd fNullPValue].
  split; [eapply conditionalNLL_of_step; eassumption|]. split; [reflexivity|].
  change hf with (snd (olds, hf)). rewrite <- Hfz. split.
  - intros p t Hp' Hfind.
    destruct (freezeNull_hit cp nullParams Hnd (heap s1) p t Hp' Hfind) as [Hk Hv].
    split; [exact Hk|]. split; [exact Hv|]. apply freezeNull_error.
  - intros a Hno. apply freezeNull_other, Hno.
Qed.

(** Freezing and then restoring on the same store gives every object of a
    free-parameter set without constants back as it was. *)
Lemma freeze_restore_pointwise cp l h :
  NoDup (map GetName l) ->
  (forall t, In t cp -> isConstant (h t) = false) ->
  forall a,
    restoreNull GetName cp l (fst (freezeNull GetName cp l h))
      (snd (freezeNull GetName cp l h)) a = h a.
Proof.
  intros Hnd Hfree a.
  destruct (freezeNull GetName cp l h) as [olds hf] eqn:Hfz. cbn [fst snd].
  assert (Herr : getError (restoreNull GetName cp l olds hf a) = getError (h a)).
  { rewrite restoreNull_error. change hf with (snd (olds, hf)).
    rewrite <- Hfz. apply freezeNull_error. }
  destruct (existsb (fun p => match find GetName cp (GetName p) with
                              | Some t => Nat.eqb t a
                              | None => false
                              end) l) eqn:Ex.
  - apply existsb_exists in Ex. destruct Ex as (p & Hp & Ht).
    destruct (find GetName cp (GetName p)) as [t|] eqn:Hfind; [|discriminate Ht].
    apply Nat.eqb_eq in Ht. subst t.
    destruct (freeze_restore GetName cp l Hnd _ _ _ hf Hfz p a Hp Hfind) as [Hv Hk].
    destruct (find_name _ _ _ _ Hfind) as [_ Hin].
    specialize (Hfree a Hin).
    destruct (restoreNull GetName cp l olds hf a) as [v e k], (h a) as [v0 e0 k0].
    cbn in *. congruence.
  - assert (Hno : forall p, In p l -> find GetName cp (GetName p) <> Some a).
    { intros p Hp Hfind. apply not_true_iff_false in Ex. apply Ex.
      apply existsb_exists. exists p. split; [exact Hp|].
      rewrite Hfind. apply Nat.eqb_refl. }
    rewrite restoreNull_other by assumption.
    change hf with (snd (olds, hf)). rewrite <- Hfz.
    apply freezeNull_other, Hno.
Qed.

(** X7. With the fit result cached on entry, a [GetHypoTest] that hands back
    a result without a conditional fit leaves every object of the store
    exactly as it found it, value, error and constant flag, and leaves the
    cache alone: the only trace of the call is in the engine's log. *)
Theorem test_without_fit_restores_store
    (s s' : State) (htr : HypoTestResult) (nullParams : RooArgSet) :
  GetHypoTest GetName calc s = Some (Some htr, s') ->
  fNullParams calc = Some nullParams ->
  NoDup (map GetName nullParams) ->
  fFitResult s <> None ->
  condFits (calls s') = condFits (calls s) ->
  (forall a, heap s' a = heap s a) /\ fFitResult s' = fFitResult s.
Proof.
  intros Hrun Hn Hnd Hcached Hcount.
  pose proof (GetHypoTest_inv _ _ _ _ _ Hrun) as R.
  inversion R as [| |data pdf nullParams' cp0 s1 fit olds hf cond h3 newcalls
                     Hd Hp Hn' He Hc Hg cp Hfz Hstep]; subst.
  assert (nullParams' = nullParams) by congruence. subst nullParams'.
  assert (s1 = s).
  { destruct (fFitResult s) as [f|] eqn:Ef; [|congruence].
    eapply ensured_cache_kept; eauto using ensureGlobalFit_inv. }
  subst s1. cbn [heap calls fFitResult] in *.
  destruct Hstep as [fit2 h3 Hex Hf2|Hex].
  - rewrite condFits_app in Hcount. cbn in Hcount. lia.
  - split; [|congruence]. intros a.
    pose proof (freeze_restore_pointwise cp nullParams (heap s) Hnd) as Hback.
    rewrite Hfz in Hback. cbn [fst snd] in Hback. apply Hback.
    intros t Ht. unfold cp, RemoveConstantParameters in Ht.
    apply filter_In in Ht. destruct Ht as [_ Ht]. apply negb_true_iff in Ht. exact Ht.
Qed.

(** X11. When none of the null parameters has the name of a free parameter
    of the model, a [GetHypoTest] that hands back a result has skipped them
    all without notice and has frozen nothing: the conditional NLL is taken
    on the store as the global-fit step left it, and the store the call
    leaves is the one the conditional step left. *)
Theorem unmatched_null_parameters_are_skipped
    (s s' : State) (htr : HypoTestResult) (nullParams : RooArgSet) :
  GetHypoTest GetName calc s = Some (Some htr, s') ->
  fNullParams calc = Some nullParams ->
  exists data pdf cp0 s1 fit NLLatCondMLE,
    GetData calc = Some data /\ GetPdf calc = Some pdf /\
    getParameters pdf data = Some cp0 /\
    ensureGlobalFit calc s = Some (tt, s1) /\ fFitResult s1 = Some fit /\
    let cp := RemoveConstantParameters (heap s1) cp0 in
    ((forall p, In p nullParams -> find GetName cp (GetName p) = None) ->
     conditionalNLL pdf data cp (heap s1) = Some NLLatCondMLE /\
     fNullPValue htr = pValue NLLatCondMLE (minNll fit) /\
     heap s' = (if existVarParams (heap s1) cp
                then snd (fitTo pdf data cp condFitOptions (heap s1))
                else heap s1)).
Proof.
  intros Hrun Hn. apply GetHypoTest_inv in Hrun.
  inversion Hrun as [| |data pdf nullParams' cp0 s1 fit olds hf cond h3 newcalls
                        Hd Hp Hn' He Hc Hg cp Hfz Hstep]; subst.
  assert (nullParams' = nullParams) by congruence. subst nullParams'.
  exists data, pdf, cp0, s1, fit, cond. repeat (split; [assumption|]).
  cbv zeta. fold cp. intros Hno.
  assert (hf = heap s1).
  { change hf with (snd (olds, hf)). rewrite <- Hfz. apply freezeNull_unmatched, Hno. }
  subst hf. cbn [heap fNullPValue].
  rewrite (restoreNull_unmatched cp nullParams olds h3 Hno).
  split; [eapply conditionalNLL_of_step; eassumption|]. split; [reflexivity|].
  destruct Hstep as [fit2 h3 Hex Hf2|Hex]; rewrite Hex; [rewrite Hf2|]; reflexivity.
Qed.

(** *** The interval query *)

Lemma seedPOI_outside poi h fp a :
  ~ In a poi -> seedPOI GetName poi h fp a = h a.
Proof.
  intros Hout. unfold seedPOI.
  destruct (find GetName poi (fitName fp)) as [par|] eqn:E; [|reflexivity].
  destruct (find_name _ _ _ _ E) as [_ Hin].
  assert (a <> par) by (intros ->; contradiction).
  unfold setError, setVal. rewrite !upd_other by assumption. reflexivity.
Qed.

Lemma seed_fold_outside poi l : forall h a,
  ~ In a poi -> fold_left (seedPOI GetName poi) l h a = h a.
Proof.
  induction l as [|fp l IH]; intros h a Hout; cbn; [reflexivity|].
  rewrite IH by assumption. apply seedPOI_outside, Hout.
Qed.

Lemma seed_fold_constant poi l : forall h a,
  isConstant (fold_left (seedPOI GetName poi) l h a) = isConstant (h a).
Proof.
  induction l as [|fp l IH]; intros h a; cbn; [reflexivity|].
  rewrite IH. unfold seedPOI.
  destruct (find GetName poi (fitName fp)) as [par|]; [|reflexivity].
  unfold setError, setVal, upd.
  destruct (Nat.eqb a par) eqn:E; [|reflexivity].
  apply Nat.eqb_eq in E. subst a. cbn. rewrite Nat.eqb_refl. reflexivity.
Qed.

(** X8. The warm start of [GetInterval] writes to nothing but the parameters
    of interest whose name floated in the fit.  The store handed to the
    evaluation of the profile agrees with the store the global-fit step left
    (the caller's store when the fit was cached) on every object outside the
    POI set and on every object whose name is not that of a fitted
    parameter, and no constant flag is changed. *)
Theorem interval_seeds_only_fitted_poi
    (s s' : State) (iv : LikelihoodInterval) (poi : RooArgSet)
    (fit : RooFitResult) :
  GetInterval GetName calc s = Some (Some iv, s') ->
  fPOI calc = Some poi ->
  fFitResult s' = Some fit ->
  exists base seeded : Heap,
    (fFitResult s <> None -> base = heap s) /\
    (fFitResult s = None ->
     exists data pdf cp0,
       GetData calc = Some data /\ GetPdf calc = Some pdf /\
       getParameters pdf data = Some cp0 /\
       base = snd (fitTo pdf data (RemoveConstantParameters (heap s) cp0)
                     globalFitOptions (heap s))) /\
    heap s' = snd (profileGetVal (intervalProfile iv) seeded) /\
    (forall a,
       ~ In a poi \/ ~ In (GetName a) (map fitName (floatParsFinal fit)) ->
       seeded a = base a) /\
    (forall a, isConstant (seeded a) = isConstant (base a)).
Proof.
  intros Hrun Hpoi Hfit. apply GetInterval_inv in Hrun.
  inversion Hrun as [|data pdf poi' cp0 s1 fit' v h2 Hd Hp Hpoi' Hg cp He Hc Hv];
    subst.
  assert (poi' = poi) by congruence. subst poi'.
  cbn [fFitResult heap intervalProfile] in *.
  assert (fit' = fit) by congruence. subst fit'.
  exists (heap s1), (fold_left (seedPOI GetName poi) (floatParsFinal fit) (heap s1)).
  apply ensureGlobalFit_inv in He.
  split; [|split; [|split; [|split]]].
  - intros Hcached.
    destruct He as [f Hf|data' pdf' cp0' f h' Hf _ _ _ _|Hf _];
      cbn [fFitResult heap] in *; congruence.
  - intros Hempty.
    destruct He as [f Hf|data' pdf' cp0' f h' Hf Hd' Hp' Hg' Hfit'|Hf _];
      cbn [fFitResult heap] in *; try congruence.
    exists data', pdf', cp0'. rewrite Hfit'. auto.
  - rewrite Hv. reflexivity.
  - intros a [Hout|Hname].
    + apply seed_fold_outside, Hout.
    + apply seed_fold_other. intros fp Hfp Heq. apply Hname.
      rewrite Heq. apply in_map, Hfp.
  - intros a. apply seed_fold_constant.
Qed.

(** X9. What a [GetInterval] that hands back an interval asks of the engine,
    in order: the likelihood over the parameters that were not constant on
    entry, the profile in the parameters of interest, the global fit over
    the same parameters when nothing was cached, and one evaluation of the
    profile.  The profile of the interval is that profile, and no
    conditional fit is ever made. *)
Theorem interval_engine_calls (s s' : State) (iv : LikelihoodInterval) :
  GetInterval GetName calc s = Some (Some iv, s') ->
  exists data pdf poi cp0,
    GetData calc = Some data /\ GetPdf calc = Some pdf /\ fPOI calc = Some poi /\
    getParameters pdf data = Some cp0 /\
    let cp := RemoveConstantParameters (heap s) cp0 in
    intervalProfile iv = mkProfile pdf data cp poi /\
    calls s' =
      calls s ++ [CallCreateNLL pdf data cp; CallCreateProfile poi] ++
      match fFitResult s with
      | Some _ => []
      | None => [CallFitTo pdf data cp globalFitOptions]
      end ++ [CallProfileGetVal] /\
    condFits (calls s') = condFits (calls s).
Proof.
  intros Hrun. apply GetInterval_inv in Hrun.
  inversion Hrun as [|data pdf poi cp0 s1 fit v h2 Hd Hp Hpoi Hg cp He Hc Hv];
    subst.
  exists data, pdf, poi, cp0. repeat (split; [assumption|]).
  cbv zeta. fold cp. cbn [intervalProfile calls]. split; [reflexivity|].
  apply ensureGlobalFit_inv in He.
  assert (Hcalls : calls s1 =
            calls s ++ [CallCreateNLL pdf data cp; CallCreateProfile poi] ++
            match fFitResult s with
            | Some _ => []
            | None => [CallFitTo pdf data cp globalFitOptions]
            end).
  { destruct He as [f Hf|data' pdf' cp0' f h' Hf Hd' Hp' Hg' Hfit'|Hf _];
      cbn [fFitResult heap calls] in *; try congruence.
    - rewrite Hf, app_nil_r. reflexivity.
    - assert (data' = data) by congruence. assert (pdf' = pdf) by congruence.
      subst data' pdf'. assert (cp0' = cp0) by congruence. subst cp0'.
      rewrite Hf, <- app_assoc. reflexivity. }
  rewrite Hcalls. split.
  - rewrite <- !app_assoc. reflexivity.
  - rewrite !condFits_concat. destruct (fFitResult s); cbn; lia.
Qed.

(** X10. Asked again, [GetInterval] cannot come back empty-handed and does
    not fit again: after a call that handed back an interval, the next call
    that returns hands back an interval with the same name, the same
    confidence level and the same best-fit set, taken from the same cached
    fit result. *)
Theorem repeated_interval_same_best_fit
    (s s1 s2 : State) (iv1 : LikelihoodInterval)
    (r2 : option LikelihoodInterval) :
  GetInterval GetName calc s = Some (Some iv1, s1) ->
  GetInterval GetName calc s1 = Some (r2, s2) ->
  exists iv2,
    r2 = Some iv2 /\
    intervalName iv2 = intervalName iv1 /\
    intervalConfidenceLevel iv2 = intervalConfidenceLevel iv1 /\
    intervalBestPOI iv2 = intervalBestPOI iv1 /\
    fFitResult s2 = fFitResult s1 /\
    globalFits (calls s2) = globalFits (calls s1).
Proof.
  intros H1 H2. apply GetInterval_inv in H1. apply GetInterval_inv in H2.
  inversion H1 as [|data pdf poi cp0 t1 fit v h2 Hd Hp Hpoi Hg cp He Hc Hv]; subst.
  inversion H2 as [Hm|data' pdf' poi' cp0' t2 fit' v' h2' Hd' Hp' Hpoi' Hg' cp' He' Hc'
                      Hv']; subst.
  { destruct Hm as [Hm|[Hm|Hm]]; congruence. }
  assert (poi' = poi) by congruence. subst poi'.
  cbn [fFitResult heap calls] in *.
  apply ensureGlobalFit_inv in He'.
  assert (Ht2 : fit' = fit /\ globalFits (calls t2) = globalFits (calls t1 ++ [CallProfileGetVal])).
  { destruct He' as [f Hf|d p c f h' Hf _ _ _ _|Hf _];
      cbn [fFitResult heap calls] in *; try congruence.
    split; [congruence|].
    rewrite app_assoc, !globalFits_app. cbn. lia. }
  destruct Ht2 as [-> Hfits].
  eexists. split; [reflexivity|]. cbn [intervalName intervalConfidenceLevel
                                       intervalBestPOI fFitResult calls].
  repeat (split; [reflexivity|]).
  rewrite globalFits_app, Hfits. cbn. lia.
Qed.

Lemma seed_fold_empty l : forall h, fold_left (seedPOI GetName []) l h = h.
Proof. induction l as [|fp l IH]; intros h; cbn; [reflexivity|apply IH]. Qed.

(** X15. A POI set that is present but empty does not stop [GetInterval]:
    the call still runs the global fit when nothing is cached, warm-starts
    nothing, so that the profile is evaluated on the store exactly as the
    global-fit step left it, and hands back an interval whose profile is in
    no parameter and whose best-fit set is empty. *)
Theorem empty_poi_set_interval (s s' : State) (iv : LikelihoodInterval) :
  GetInterval GetName calc s = Some (Some iv, s') ->
  fPOI calc = Some [] ->
  intervalBestPOI iv = [] /\
  profPOI (intervalProfile iv) = [] /\
  fFitResult s' <> None /\
  exists base : Heap,
    (fFitResult s <> None -> base = heap s) /\
    (fFitResult s = None ->
     exists data pdf cp0,
       GetData calc = Some data /\ GetPdf calc = Some pdf /\
       getParameters pdf data = Some cp0 /\
       base = snd (fitTo pdf data (RemoveConstantParameters (heap s) cp0)
                     globalFitOptions (heap s))) /\
    heap s' = snd (profileGetVal (intervalProfile iv) base).
Proof.
  intros Hrun Hpoi. apply GetInterval_inv in Hrun.
  inversion Hrun as [|data pdf poi cp0 s1 fit v h2 Hd Hp Hpoi' Hg cp He Hc Hv];
    subst.
  assert (poi = []) by congruence. subst poi.
  cbn [fFitResult heap intervalProfile intervalBestPOI profPOI].
  split; [reflexivity|]. split; [reflexivity|]. split; [discriminate|].
  exists (heap s1). apply ensureGlobalFit_inv in He.
  split; [|split].
  - intros Hcached.
    destruct He as [f Hf|data' pdf' cp0' f h' Hf _ _ _ _|Hf _];
      cbn [fFitResult heap] in *; congruence.
  - intros Hempty.
    destruct He as [f Hf|data' pdf' cp0' f h' Hf Hd' Hp' Hg' Hfit'|Hf _];
      cbn [fFitResult heap] in *; try congruence.
    exists data', pdf', cp0'. rewrite Hfit'. auto.
  - rewrite seed_fold_empty in Hv. rewrite Hv. reflexivity.
Qed.

(** X16. A model that hands back no parameter set is met differently by the
    two queries.  On a calculator with the inputs present and nothing
    cached, [GetHypoTest] returns the empty result and leaves the state as
    it was, with no engine call at all, while [GetInterval] does not
    return. *)
Theorem no_parameter_set_splits_the_queries (s : State) data pdf :
  GetData calc = Some data -> GetPdf calc = Some pdf ->
  getParameters pdf data = None ->
  fFitResult s = None ->
  (fNullParams calc <> None -> GetHypoTest GetName calc s = Some (None, s)) /\
  (fPOI calc <> None -> GetInterval GetName calc s = None).
Proof.
  intros Hd Hp Hg Hc. split.
  - destruct (fNullParams calc) as [nullParams|] eqn:Hn; [intros _|congruence].
    rewrite (GetHypoTest_eq s data pdf nullParams Hd Hp Hn).
    rewrite ensureGlobalFit_eq, Hc, DoGlobalFit_eq, Hd, Hp, Hg.
    cbn [fFitResult]. rewrite <- Hc at 1. rewrite state_eta. reflexivity.
  - destruct (fPOI calc) as [poi|] eqn:Hpoi; [intros _|congruence].
    rewrite (GetInterval_eq s data pdf poi Hd Hp Hpoi), Hg. reflexivity.
Qed.

End Queries.

(** ** The standard normal survival function

    Between [0] and [z] the integral of [gauss] lies between consecutive
    partial sums of its series, because [exp (- u)] lies between consecutive
    Taylor polynomials for [0 <= u]. *)

Module SurvivalFacts.
Import Survival.
Local Open Scope R_scope.

Lemma gauss_pos t : 0 < gauss t.
Proof. apply exp_pos. Qed.

Lemma normal_sf_0 : normal_sf 0 = 1 / 2.
Proof. unfold normal_sf. rewrite RiemannInt_P9. lra. Qed.

Lemma derivable_pt_lim_ext f g x l l' :
  (forall y, f y = g y) -> l = l' ->
  derivable_pt_lim f x l -> derivable_pt_lim g x l'.
Proof.
  intros Hfg <- H eps Heps. destruct (H eps Heps) as [d Hd]. exists d.
  intros h Hh1 Hh2. rewrite <- !Hfg. apply Hd; assumption.
Qed.

Lemma coef_S k : coef (S k) * INR (S k) = - coef k.
Proof.
  unfold coef. rewrite fact_simpl, mult_INR. cbn [pow].
  assert (INR (S k) <> 0) by (apply not_0_INR; lia).
  assert (INR (fact k) <> 0) by (apply INR_fact_neq_0).
  field. split; assumption.
Qed.

Lemma monomial_deriv c k u :
  derivable_pt_lim (fun y => c * y ^ S k) u (c * INR (S k) * u ^ k).
Proof.
  eapply derivable_pt_lim_ext; [| |apply (derivable_pt_lim_scal _ c _ _ (derivable_pt_lim_pow u (S k)))].
  - intros y. reflexivity.
  - cbn [Nat.pred]. ring.
Qed.

Lemma expTaylor_deriv n u : derivable_pt_lim (expTaylor (S n)) u (- expTaylor n u).
Proof.
  induction n as [|n IH].
  - eapply derivable_pt_lim_ext; [| |apply (derivable_pt_lim_plus _ _ _ _ _
                                  (derivable_pt_lim_const 1 u) (monomial_deriv (coef 1) 0 u))].
    + intros y. reflexivity.
    + cbn [expTaylor]. rewrite coef_S. unfold coef. cbn. field.
  - eapply derivable_pt_lim_ext; [| |apply (derivable_pt_lim_plus _ _ _ _ _ IH
                                  (monomial_deriv (coef (S (S n))) (S n) u))].
    + intros y. reflexivity.
    + cbn [expTaylor]. rewrite coef_S. ring.
Qed.

Lemma exp_neg_deriv u : derivable_pt_lim (fun y => exp (- y)) u (- exp (- u)).
Proof.
  eapply derivable_pt_lim_ext; [| |apply (derivable_pt_lim_comp (fun y => - y) exp u (-1) (exp (- u)))].
  - intros y. reflexivity.
  - ring.
  - eapply derivable_pt_lim_ext; [| |apply (derivable_pt_lim_opp _ _ _ (derivable_pt_lim_id u))];
      [intros; reflexivity|reflexivity].
  - apply derivable_pt_lim_exp.
Qed.

Lemma expTaylor_0 n : expTaylor n 0 = 1.
Proof.
  induction n as [|n IH]; [reflexivity|]. cbn [expTaylor]. rewrite IH, pow_ne_zero by lia. ring.
Qed.

(** A function that starts at [0] and has a nonnegative derivative on
    [[0, b]] is nonnegative there. *)
Lemma nonneg_from_derivative (f f' : R -> R) (b : R) :
  f 0 = 0 ->
  (forall c, 0 <= c <= b -> derivable_pt_lim f c (f' c)) ->
  (forall c, 0 <= c <= b -> 0 <= f' c) ->
  forall x, 0 <= x <= b -> 0 <= f x.
Proof.
  intros H0 Hd Hpos x [Hx0 Hxb].
  destruct (Req_dec x 0) as [->|Hne]; [lra|].
  assert (Hlt : 0 < x) by lra.
  destruct (MVT_cor2 f f' 0 x Hlt) as (c & Hc & Hc1).
  { intros c Hc. apply Hd. lra. }
  assert (0 <= f' c) by (apply Hpos; lra).
  rewrite H0 in Hc. replace (f x) with (f' c * (x - 0)) by lra.
  apply Rmult_le_pos; lra.
Qed.

Lemma taylor_sign n : forall u, 0 <= u -> 0 <= (-1) ^ n * (expTaylor n u - exp (- u)).
Proof.
  induction n as [|n IH]; intros u Hu.
  - cbn. assert (exp (- u) <= 1).
    { rewrite <- exp_0. destruct (Req_dec u 0) as [->|]; [rewrite Ropp_0; lra|].
      left. apply exp_increasing. lra. }
    lra.
  - apply (nonneg_from_derivative
             (fun y => (-1) ^ S n * (expTaylor (S n) y - exp (- y)))
             (fun y => (-1) ^ n * (expTaylor n y - exp (- y))) u).
    + rewrite expTaylor_0, Ropp_0, exp_0. ring.
    + intros c _.
      eapply derivable_pt_lim_ext;
        [| |apply (derivable_pt_lim_scal _ ((-1) ^ S n) _ _
                     (derivable_pt_lim_minus _ _ _ _ _ (expTaylor_deriv n c) (exp_neg_deriv c)))].
      * intros y. reflexivity.
      * cbn [pow]. ring.
    + intros c Hc. apply IH. lra.
    + lra.
Qed.

Lemma half_square_pow z k : (z * z / 2) ^ k = z ^ (2 * k) / 2 ^ k.
Proof.
  induction k as [|k IH]; [cbn; field|].
  replace (2 * S k)%nat with (S (S (2 * k))) by lia.
  cbn [pow]. rewrite IH. field. apply pow_nonzero. lra.
Qed.

Lemma gaussPoly_deriv n z : derivable_pt_lim (gaussPoly n) z (expTaylor n (z * z / 2)).
Proof.
  induction n as [|n IH].
  - apply (derivable_pt_lim_ext id (gaussPoly 0) z 1 (expTaylor 0 (z * z / 2)));
      [reflexivity|reflexivity|apply derivable_pt_lim_id].
  - eapply derivable_pt_lim_ext;
      [| |apply (derivable_pt_lim_plus _ _ _ _ _ IH
                   (monomial_deriv (coef (S n) / (2 ^ S n * INR (2 * S n + 1)))
                      (2 * S n) z))].
    + intros y. cbn [gaussPoly]. replace (2 * S n + 1)%nat with (S (2 * S n)) by lia.
      reflexivity.
    + cbn [expTaylor]. rewrite half_square_pow.
      replace (2 * S n + 1)%nat with (S (2 * S n)) by lia.
      field. repeat split; try (apply not_0_INR; lia); try (apply pow_nonzero; lra); try lra.
Qed.

Lemma gaussPoly_0 n : gaussPoly n 0 = 0.
Proof.
  induction n as [|n IH]; [reflexivity|]. cbn [gaussPoly].
  rewrite IH, pow_ne_zero by lia. ring.
Qed.

Lemma gaussPrimitive_deriv x : 0 <= x <= 4 -> derivable_pt_lim gaussPrimitive x (gauss x).
Proof. intros Hx. unfold gaussPrimitive. apply RiemannInt_P28. assumption. Qed.

Lemma gaussPrimitive_integral x : 0 <= x <= 4 -> gaussPrimitive x = RiemannInt (gauss_integrable x).
Proof.
  intros [H0 H4]. unfold gaussPrimitive, primitive.
  destruct (Rle_dec 0 x) as [?|n]; [|contradiction].
  destruct (Rle_dec x 4) as [?|n]; [|contradiction].
  apply RiemannInt_P5.
Qed.

Lemma gaussPrimitive_0 : gaussPrimitive 0 = 0.
Proof. rewrite gaussPrimitive_integral by lra. apply RiemannInt_P9. Qed.

Lemma integral_sign n z : 0 <= z <= 4 -> 0 <= (-1) ^ n * (gaussPoly n z - gaussPrimitive z).
Proof.
  apply (nonneg_from_derivative
           (fun y => (-1) ^ n * (gaussPoly n y - gaussPrimitive y))
           (fun y => (-1) ^ n * (expTaylor n (y * y / 2) - gauss y)) 4).
  - rewrite gaussPoly_0, gaussPrimitive_0. ring.
  - intros c Hc.
    eapply derivable_pt_lim_ext;
      [| |apply (derivable_pt_lim_scal _ ((-1) ^ n) _ _
                   (derivable_pt_lim_minus _ _ _ _ _ (gaussPoly_deriv n c) (gaussPrimitive_deriv c Hc)))].
    + intros y. reflexivity.
    + reflexivity.
  - intros c Hc. apply taylor_sign. nra.
Qed.

Lemma gaussPrimitive_increasing x y : 0 <= x -> x <= y -> y <= 4 -> gaussPrimitive x <= gaussPrimitive y.
Proof.
  intros Hx Hxy Hy. destruct (Req_dec x y) as [->|Hne]; [lra|].
  destruct (MVT_cor2 gaussPrimitive gauss x y) as (c & Hc & Hc1); [lra| |].
  - intros c Hc. apply gaussPrimitive_deriv. lra.
  - pose proof (gauss_pos c). assert (0 <= gauss c * (y - x)) by (apply Rmult_le_pos; lra).
    lra.
Qed.

Lemma gaussPrimitive_between z a b :
  0 <= a -> a <= z -> z <= b -> b <= 4 ->
  gaussPoly 21 a <= gaussPrimitive z <= gaussPoly 22 b.
Proof.
  intros Ha Haz Hzb Hb.
  pose proof (integral_sign 21 a ltac:(lra)) as H21.
  pose proof (integral_sign 22 b ltac:(lra)) as H22.
  replace ((-1) ^ 21) with (-1) in H21 by (cbn; ring).
  replace ((-1) ^ 22) with 1 in H22 by (cbn; ring).
  pose proof (gaussPrimitive_increasing a z ltac:(lra) ltac:(lra) ltac:(lra)).
  pose proof (gaussPrimitive_increasing z b ltac:(lra) ltac:(lra) ltac:(lra)).
  lra.
Qed.

Lemma PI_bounds : 3.14159265 < PI < 3.14159269.
Proof.
  pose proof (PI_2_3_7_ineq 3) as [Hlo Hhi].
  unfold sum_f_R0, tg_alt, PI_2_3_7_tg, Ratan_seq in Hlo, Hhi.
  cbn [Nat.mul Nat.add] in Hlo, Hhi.
  repeat match type of Hlo with context [INR ?n] =>
    let z := eval vm_compute in (Z.of_nat n) in
    replace (INR n) with (IZR z) in Hlo by (rewrite INR_IZR_INZ; reflexivity) end.
  repeat match type of Hhi with context [INR ?n] =>
    let z := eval vm_compute in (Z.of_nat n) in
    replace (INR n) with (IZR z) in Hhi by (rewrite INR_IZR_INZ; reflexivity) end.
  split; lra.
Qed.

Lemma sqrt_2PI_bounds : 2.506628 < sqrt (2 * PI) < 2.506629.
Proof.
  pose proof PI_bounds as [Hlo Hhi].
  assert (H1 : sqrt (2.506628 * 2.506628) < sqrt (2 * PI)) by (apply sqrt_lt_1; nra).
  assert (H2 : sqrt (2 * PI) < sqrt (2.506629 * 2.506629)) by (apply sqrt_lt_1; nra).
  rewrite sqrt_square in H1, H2 by lra. lra.
Qed.

Lemma gaussTerm_closed k z : gaussTerm k z = coef k / 2 ^ k * z ^ (2 * k + 1).
Proof.
  induction k as [|k IH].
  - unfold coef. cbn. field.
  - cbn [gaussTerm]. rewrite IH.
    replace (2 * S k + 1)%nat with (S (S (2 * k + 1))) by lia.
    pose proof (coef_S k) as Hc.
    assert (INR (S k) <> 0) by (apply not_0_INR; lia).
    assert (2 ^ k <> 0) by (apply pow_nonzero; lra).
    replace (coef k) with (- (coef (S k) * INR (S k))) by (rewrite Hc; ring).
    cbn [pow]. field. split; assumption.
Qed.

Lemma gaussSum_poly n z : gaussSum n z = gaussPoly n z.
Proof.
  induction n as [|n IH]; [reflexivity|].
  cbn [gaussSum gaussPoly]. rewrite IH, gaussTerm_closed.
  assert (INR (2 * S n + 1) <> 0) by (apply not_0_INR; lia).
  assert (2 ^ S n <> 0) by (apply pow_nonzero; lra).
  field. split; assumption.
Qed.

Local Open Scope Q_scope.

Lemma Q2R_nat n : Q2R (inject_Z (Z.of_nat n)) = INR n.
Proof. unfold Q2R, inject_Z. cbn. rewrite INR_IZR_INZ. lra. Qed.

Lemma nat_Q_nonzero n : (0 < n)%nat -> ~ inject_Z (Z.of_nat n) == 0.
Proof. unfold Qeq, inject_Z. cbn. lia. Qed.

Lemma gaussTermQ_R k z : Q2R (gaussTermQ k z) = gaussTerm k (Q2R z).
Proof.
  induction k as [|k IH]; [reflexivity|]. cbn [gaussTermQ gaussTerm].
  rewrite Q2R_div by (apply nat_Q_nonzero; lia).
  rewrite Q2R_mult, Q2R_div by discriminate.
  rewrite Q2R_opp, Q2R_mult, IH, Q2R_nat.
  replace (Q2R 2) with 2%R by (unfold Q2R; cbn; lra). reflexivity.
Qed.

Lemma gaussSumQ_R n z : Q2R (gaussSumQ n z) = gaussSum n (Q2R z).
Proof.
  induction n as [|n IH]; [reflexivity|]. cbn [gaussSumQ gaussSum].
  rewrite Q2R_plus, Q2R_div by (apply nat_Q_nonzero; lia).
  rewrite IH, gaussTermQ_R, Q2R_nat. reflexivity.
Qed.

Local Close Scope Q_scope.

Lemma gaussPoly_21_lower : 1.2517344 <= gaussPoly 21 3.2249.
Proof.
  replace 3.2249 with (Q2R (32249 # 10000)) by (unfold Q2R; cbn; lra).
  rewrite <- gaussSum_poly, <- gaussSumQ_R.
  replace 1.2517344 with (Q2R (12517344 # 10000000)) by (unfold Q2R; cbn; lra).
  apply Qle_Rle, Qle_bool_iff. vm_compute. reflexivity.
Qed.

Lemma gaussPoly_22_upper : gaussPoly 22 3.225 <= 1.2517354.
Proof.
  replace 3.225 with (Q2R (3225 # 1000)) by (unfold Q2R; cbn; lra).
  rewrite <- gaussSum_poly, <- gaussSumQ_R.
  replace 1.2517354 with (Q2R (12517354 # 10000000)) by (unfold Q2R; cbn; lra).
  apply Qle_Rle, Qle_bool_iff. vm_compute. reflexivity.
Qed.

(** The survival function on the interval that holds the test statistic of
    the end-to-end scenario. *)
Lemma normal_sf_bounds z :
  3.2249 <= z <= 3.225 -> 6.29e-4 < normal_sf z < 6.31e-4.
Proof.
  intros Hz. unfold normal_sf. rewrite <- gaussPrimitive_integral by lra.
  pose proof (gaussPrimitive_between z 3.2249 3.225 ltac:(lra) ltac:(lra) ltac:(lra) ltac:(lra))
    as [Hlo Hhi].
  pose proof gaussPoly_21_lower. pose proof gaussPoly_22_upper.
  pose proof sqrt_2PI_bounds as [Slo Shi].
  set (s := sqrt (2 * PI)) in *. set (Fz := gaussPrimitive z) in *.
  assert (Hs : 0 < s) by lra.
  assert (H1 : (1 / 2 - 6.31e-4) * s < Fz) by nra.
  assert (H2 : Fz < (1 / 2 - 6.29e-4) * s) by nra.
  split.
  - apply Rlt_0_minus. replace (1 / 2 - Fz / s - 6.29e-4)
      with (((1 / 2 - 6.29e-4) * s - Fz) / s) by (field; lra).
    apply Rdiv_lt_0_compat; lra.
  - apply Rlt_0_minus. replace (6.31e-4 - (1 / 2 - Fz / s))
      with ((Fz - (1 / 2 - 6.31e-4) * s) / s) by (field; lra).
    apply Rdiv_lt_0_compat; lra.
Qed.

End SurvivalFacts.

(** ** The test statistic and the p-value *)

Section PValue.
Context (GetName : addr -> string) {engine : FittingEngine} (calc : Calculator).
Import Survival.

Lemma deltaNLL_below (NLLatCondMLE NLLatMLE : Double_t) :
  PrimFloat.ltb NLLatCondMLE NLLatMLE = true ->
  deltaNLL NLLatCondMLE NLLatMLE = 0%float.
Proof.
  intros Hlt. unfold deltaNLL, std_max.
  rewrite (IEEEFacts.sub_lt_neg _ _ Hlt). reflexivity.
Qed.



Lemma statistic_value :
  exists q, finiteValue 3.2249030993194197%float = Some q /\
            (3.2249 <= q <= 3.225)%R.
Proof.
  unfold finiteValue.
  assert (E : Prim2SF 3.2249030993194197%float
              = S754_finite false 7261836198200448 (-51))
    by (vm_compute; reflexivity).
  rewrite E. cbn [SF2R]. eexists. split; [reflexivity|].
  unfold powerRZ. replace (Pos.to_nat 51) with 51%nat by reflexivity.
  assert (H : (2 ^ 51 = 2251799813685248)%R) by (cbn; lra).
  rewrite H. lra.
Qed.

(** What a returning [GetHypoTest] has computed: the unconditional NLL of
    the cached fit, the conditional NLL of the conditional step, and the
    p-value of the two. *)
Lemma hypotest_pvalue (s s' : State) (htr : HypoTestResult) :
  GetHypoTest GetName calc s = Some (Some htr, s') ->
  exists data pdf nullParams cp0 s1 fit NLLatCondMLE,
    GetData calc = Some data /\ GetPdf calc = Some pdf /\
    fNullParams calc = Some nullParams /\
    getParameters pdf data = Some cp0 /\
    ensureGlobalFit calc s = Some (tt, s1) /\ fFitResult s1 = Some fit /\
    (let cp := RemoveConstantParameters (heap s1) cp0 in
     conditionalNLL pdf data cp
       (snd (freezeNull GetName cp nullParams (heap s1))) = Some NLLatCondMLE) /\
    fNullPValue htr = pValue NLLatCondMLE (minNll fit).
Proof.
  intros Hrun. apply GetHypoTest_inv in Hrun.
  inversion Hrun as [| |data pdf nullParams cp0 s1 fit olds hf cond h3 newcalls
                        Hd Hp Hn He Hc Hg cp Hfz Hstep]; subst.
  exists data, pdf, nullParams, cp0, s1, fit, cond.
  repeat (split; [assumption|]). cbn [fNullPValue]. split; [|reflexivity].
  cbv zeta. fold cp. rewrite Hfz. cbn [snd]. unfold conditionalNLL.
  destruct Hstep as [fit2 h3 Hex Hf2|Hex]; rewrite Hex; [rewrite Hf2|];
    reflexivity.
Qed.

Lemma Rabs_within (p v t : R) : (Rabs (p - v) <= t -> v - t <= p <= v + t)%R.
Proof.
  intros H. unfold Rabs in H. destruct (Rcase_abs (p - v)); lra.
Qed.

(** C5. The p-value [GetHypoTest] hands back is [SignificanceToPValue]
    applied to the test statistic [sqrt (2 * deltaNLL)], with [deltaNLL]
    clamped at zero, the unconditional NLL taken from the cached fit and the
    conditional one from the conditional step.  With [SignificanceToPValue]
    the standard normal survival function, to within [tolerance] at that
    statistic, the p-value handed back is a finite double within [tolerance]
    of the survival function at the statistic; for NLL values 10.0 and 15.2
    the statistic is the double 3.2249030993194197 and the p-value lies
    within [tolerance] of the interval from 6.29e-4 to 6.31e-4. *)
Theorem p_value_is_survival_of_test_statistic
    (s s' : State) (htr : HypoTestResult) (tolerance : R) :
  GetHypoTest GetName calc s = Some (Some htr, s') ->
  exists data pdf nullParams cp0 s1 fit NLLatCondMLE,
    GetData calc = Some data /\ GetPdf calc = Some pdf /\
    fNullParams calc = Some nullParams /\
    getParameters pdf data = Some cp0 /\
    ensureGlobalFit calc s = Some (tt, s1) /\ fFitResult s1 = Some fit /\
    (let cp := RemoveConstantParameters (heap s1) cp0 in
     conditionalNLL pdf data cp
       (snd (freezeNull GetName cp nullParams (heap s1))) = Some NLLatCondMLE) /\
    let q := PrimFloat.sqrt (2 * std_max (NLLatCondMLE - minNll fit) 0)%float in
    fNullPValue htr = SignificanceToPValue q /\
    (survival_within tolerance SignificanceToPValue q ->
     exists z p,
       finiteValue q = Some z /\
       finiteValue (fNullPValue htr) = Some p /\
       (Rabs (p - normal_sf z) <= tolerance)%R /\
       (minNll fit = 10%float -> NLLatCondMLE = 15.2%float ->
        q = 3.2249030993194197%float /\
        (6.29e-4 - tolerance < p < 6.31e-4 + tolerance)%R)).
Proof.
  intros Hrun.
  destruct (hypotest_pvalue s s' htr Hrun)
    as (data & pdf & nullParams & cp0 & s1 & fit & cond & Hd & Hp & Hn & Hg & He &
        Hc & Hcond & Hpv).
  exists data, pdf, nullParams, cp0, s1, fit, cond.
  do 7 (split; [assumption|]). cbv zeta.
  split; [exact Hpv|].
  intros (z & p & Hz & Hp' & Hclose).
  exists z, p. split; [exact Hz|]. split; [rewrite Hpv; exact Hp'|].
  split; [exact Hclose|].
  intros Hmle Hcnd. rewrite Hmle, Hcnd in Hz.
  assert (Eq : PrimFloat.sqrt (2 * std_max (15.2 - 10) 0)%float
               = 3.2249030993194197%float) by reflexivity.
  split; [rewrite Hmle, Hcnd; exact Eq|].
  rewrite Eq in Hz.
  destruct statistic_value as (q0 & Hq0 & Hb).
  assert (z = q0) by congruence. subst q0.
  pose proof (SurvivalFacts.normal_sf_bounds z Hb) as Hsf.
  apply Rabs_within in Hclose. lra.
Qed.

(** C10 (amended). In a [GetHypoTest] that hands back a result, when the
    conditional NLL is below the unconditional one, or equal to it and
    finite, [deltaNLL] is a zero, the test statistic is a zero ([+0.0] or
    [-0.0]) and the p-value handed back is [SignificanceToPValue] of that
    zero.  The standard normal survival function at zero is one half: with
    [SignificanceToPValue] that function to within [tolerance] at the
    statistic, the p-value handed back is within [tolerance] of one half,
    and exactly one half when the conversion is exact there. *)
Theorem p_value_at_zero_statistic
    (s s' : State) (htr : HypoTestResult) (tolerance : R) :
  GetHypoTest GetName calc s = Some (Some htr, s') ->
  exists data pdf nullParams cp0 s1 fit NLLatCondMLE,
    GetData calc = Some data /\ GetPdf calc = Some pdf /\
    fNullParams calc = Some nullParams /\
    getParameters pdf data = Some cp0 /\
    ensureGlobalFit calc s = Some (tt, s1) /\ fFitResult s1 = Some fit /\
    (let cp := RemoveConstantParameters (heap s1) cp0 in
     conditionalNLL pdf data cp
       (snd (freezeNull GetName cp nullParams (heap s1))) = Some NLLatCondMLE) /\
    (PrimFloat.ltb NLLatCondMLE (minNll fit) = true \/
     (PrimFloat.eqb NLLatCondMLE (minNll fit) = true /\
      PrimFloat.is_finite NLLatCondMLE = true) ->
     let q := testStatistic NLLatCondMLE (minNll fit) in
     (deltaNLL NLLatCondMLE (minNll fit) = 0%float \/
      deltaNLL NLLatCondMLE (minNll fit) = (-0)%float) /\
     (q = 0%float \/ q = (-0)%float) /\
     finiteValue q = Some 0%R /\
     fNullPValue htr = SignificanceToPValue q /\
     normal_sf 0 = (1 / 2)%R /\
     (survival_within tolerance SignificanceToPValue q ->
      exists p,
        finiteValue (fNullPValue htr) = Some p /\
        (Rabs (p - 1 / 2) <= tolerance)%R /\
        (tolerance = 0%R -> p = (1 / 2)%R))).
Proof.
  intros Hrun.
  destruct (hypotest_pvalue s s' htr Hrun)
    as (data & pdf & nullParams & cp0 & s1 & fit & cond & Hd & Hp & Hn & Hg & He &
        Hc & Hcond & Hpv).
  exists data, pdf, nullParams, cp0, s1, fit, cond.
  do 7 (split; [assumption|]). intros H q.
  assert (Hd0 : deltaNLL cond (minNll fit) = 0%float \/
                deltaNLL cond (minNll fit) = (-0)%float).
  { destruct H as [Hlt|[Heq Hfin]].
    - left. apply deltaNLL_below, Hlt.
    - unfold deltaNLL, std_max.
      destruct (IEEEFacts.sub_eq_zero _ _ Heq Hfin) as [-> | ->];
        [left|right]; reflexivity. }
  assert (Hq : q = 0%float \/ q = (-0)%float).
  { unfold q, testStatistic. destruct Hd0 as [-> | ->]; [left|right]; reflexivity. }
  assert (Hval : finiteValue q = Some 0%R).
  { destruct Hq as [-> | ->]; reflexivity. }
  split; [exact Hd0|]. split; [exact Hq|]. split; [exact Hval|].
  split; [exact Hpv|]. split; [apply SurvivalFacts.normal_sf_0|].
  intros (z & p & Hz & Hp' & Hclose).
  assert (z = 0%R) by congruence. subst z.
  rewrite SurvivalFacts.normal_sf_0 in Hclose.
  exists p. split; [rewrite Hpv; exact Hp'|]. split; [exact Hclose|].
  intros Ht. apply Rabs_within in Hclose. lra.
Qed.

End PValue.

(** ** The sign of the test statistic *)

Section Statistic.
Import IEEEKind IEEESign.

Lemma testStatistic_SF (NLLatCondMLE NLLatMLE : Double_t) :
  Prim2SF (testStatistic NLLatCondMLE NLLatMLE) =
  SF64sqrt (SF64mul (Prim2SF 2%float) (Prim2SF (deltaNLL NLLatCondMLE NLLatMLE))).
Proof. unfold testStatistic. rewrite FloatAxioms.sqrt_spec, FloatAxioms.mul_spec. reflexivity. Qed.

(** The clamp hands a NaN difference on and turns every other difference
    into a double that is not below zero. *)
Lemma deltaNLL_cases (NLLatCondMLE NLLatMLE : Double_t) :
  (SF_nan (Prim2SF (NLLatCondMLE - NLLatMLE)%float) = true /\
   deltaNLL NLLatCondMLE NLLatMLE = (NLLatCondMLE - NLLatMLE)%float) \/
  (SF_nan (Prim2SF (NLLatCondMLE - NLLatMLE)%float) = false /\
   SF_nonneg (Prim2SF (deltaNLL NLLatCondMLE NLLatMLE)) = true).
Proof.
  unfold deltaNLL, std_max.
  destruct (PrimFloat.ltb (NLLatCondMLE - NLLatMLE) 0) eqn:E.
  - right. split; [|reflexivity].
    rewrite FloatAxioms.ltb_spec in E.
    destruct (Prim2SF (NLLatCondMLE - NLLatMLE)%float) as [[]|[]| |[] ? ?];
      try discriminate E; reflexivity.
  - rewrite FloatAxioms.ltb_spec in E. change (Prim2SF 0) with (S754_zero false) in E.
    destruct (SFltb_zero_false _ E) as [H|H]; [left; auto|right].
    split; [apply SF_nonneg_not_nan|]; exact H.
Qed.

Lemma testStatistic_nonneg (NLLatCondMLE NLLatMLE : Double_t) :
  SF_nonneg (Prim2SF (deltaNLL NLLatCondMLE NLLatMLE)) = true ->
  SF_nonneg (Prim2SF (testStatistic NLLatCondMLE NLLatMLE)) = true.
Proof.
  intros H. rewrite testStatistic_SF. apply SFsqrt_nonneg, SFmul_two_nonneg, H.
Qed.

(** X12. For any two NLL values the clamped difference and the test
    statistic handed to [SignificanceToPValue] are never below zero, and the
    statistic is a NaN exactly when the difference of the two values is a
    NaN. *)
Theorem test_statistic_never_negative (NLLatCondMLE NLLatMLE : Double_t) :
  PrimFloat.ltb (deltaNLL NLLatCondMLE NLLatMLE) 0 = false /\
  PrimFloat.ltb (testStatistic NLLatCondMLE NLLatMLE) 0 = false /\
  PrimFloat.is_nan (testStatistic NLLatCondMLE NLLatMLE) =
    PrimFloat.is_nan (NLLatCondMLE - NLLatMLE)%float.
Proof.
  split; [|split].
  - unfold deltaNLL, std_max.
    destruct (PrimFloat.ltb (NLLatCondMLE - NLLatMLE) 0) eqn:E; [reflexivity|exact E].
  - rewrite FloatAxioms.ltb_spec, testStatistic_SF. apply SFsqrt_not_neg.
  - rewrite !is_nan_SF.
    destruct (deltaNLL_cases NLLatCondMLE NLLatMLE) as [[Hn Hd]|[Hn Hd]]; rewrite Hn.
    + rewrite testStatistic_SF, Hd.
      destruct (Prim2SF (NLLatCondMLE - NLLatMLE)%float); try discriminate Hn.
      reflexivity.
    + apply SF_nonneg_not_nan, testStatistic_nonneg, Hd.
Qed.

(** X13. When the conditional NLL is above the unconditional one the clamp
    is idle: [deltaNLL] is the difference as the subtraction rounds it, it is
    above zero, and the test statistic is the square root of twice that
    difference and not a NaN. *)
Theorem deltaNLL_is_difference_above (NLLatCondMLE NLLatMLE : Double_t) :
  PrimFloat.ltb NLLatMLE NLLatCondMLE = true ->
  deltaNLL NLLatCondMLE NLLatMLE = (NLLatCondMLE - NLLatMLE)%float /\
  PrimFloat.ltb 0 (deltaNLL NLLatCondMLE NLLatMLE) = true /\
  testStatistic NLLatCondMLE NLLatMLE
    = PrimFloat.sqrt (2 * (NLLatCondMLE - NLLatMLE))%float /\
  PrimFloat.is_nan (testStatistic NLLatCondMLE NLLatMLE) = false.
Proof.
  intros Hlt. destruct (sub_gt_pos _ _ Hlt) as [Hpos Hneg].
  assert (Hd : deltaNLL NLLatCondMLE NLLatMLE = (NLLatCondMLE - NLLatMLE)%float).
  { unfold deltaNLL, std_max. rewrite Hneg. reflexivity. }
  split; [exact Hd|]. split; [rewrite Hd; exact Hpos|].
  split; [unfold testStatistic; rewrite Hd; reflexivity|].
  rewrite is_nan_SF. apply SF_nonneg_not_nan, testStatistic_nonneg.
  rewrite Hd. apply has_sign_nonneg.
  rewrite FloatAxioms.sub_spec. rewrite FloatAxioms.ltb_spec in Hlt.
  apply SFsub_gt_pos; auto using Prim2SF_valid.
Qed.

Lemma deltaNLL_is_difference_above_witness :
  PrimFloat.ltb 10%float 15.2%float = true /\
  deltaNLL 15.2%float 10%float = (15.2 - 10)%float /\
  testStatistic 15.2%float 10%float = 3.2249030993194197%float.
Proof.
  split; [reflexivity|].
  destruct (deltaNLL_is_difference_above 15.2%float 10%float eq_refl) as (H1 & _ & H3 & _).
  split; [exact H1|]. rewrite H3. reflexivity.
Defined.

End Statistic.

(** ** Two calculators from one configuration *)

Section ConstructionFacts.
Import Construction.

Lemma append_assoc (a b c : string) : ((a ++ b) ++ c = a ++ (b ++ c))%string.
Proof. induction a as [|x a IH]; cbn; [reflexivity|]. rewrite IH. reflexivity. Qed.

(** X14. The constructor is not idempotent on the configuration it is given.
    With a prior in the configuration, the first construction replaces the
    pdf of the configuration by its product with the prior, named
    [Costrained_<pdf>_with_<prior>], and a second construction from the same
    configuration multiplies that product by the prior once more; each
    calculator starts with an empty fit cache. *)
Theorem second_construction_multiplies_prior_again
    (model model1 model2 : ModelConfig) (combined1 combined2 : option PdfTerm)
    (c1 c2 : Members) (pdf prior : PdfTerm) :
  GetPdf model = Some pdf ->
  GetPriorPdf model = Some prior ->
  ProfileLikelihoodCalculator model combined1 = Some (c1, model1) ->
  ProfileLikelihoodCalculator model1 combined2 = Some (c2, model2) ->
  let name1 := ("Costrained_" ++ GetName pdf ++ "_with_" ++ GetName prior)%string in
  let name2 := ("Costrained_" ++ name1 ++ "_with_" ++ GetName prior)%string in
  fPdf c1 = Some (RooProdPdf name1 name1 pdf prior) /\
  GetPdf model1 = fPdf c1 /\
  GetPriorPdf model1 = Some prior /\
  fPdf c2 = Some (RooProdPdf name2 name2 (RooProdPdf name1 name1 pdf prior) prior) /\
  GetPdf model2 = fPdf c2 /\
  GetPriorPdf model2 = Some prior /\
  fFitResult c1 = None /\ fFitResult c2 = None.
Proof.
  intros Hpdf Hprior H1 H2 name1 name2. subst name1 name2.
  unfold ProfileLikelihoodCalculator in H1. rewrite Hpdf, Hprior in H1.
  injection H1 as <- <-.
  unfold ProfileLikelihoodCalculator in H2. cbn [SetPdf GetPdf GetPriorPdf] in H2.
  rewrite Hprior in H2. injection H2 as <- <-.
  cbn [fPdf fFitResult SetPdf GetPdf GetPriorPdf GetName].
  rewrite !append_assoc. repeat split; exact Hprior.
Qed.

Lemma second_construction_multiplies_prior_again_witness :
  exists c1 model1 c2 model2,
    ProfileLikelihoodCalculator
      (mkModel (Some (WorkspacePdf "model")) (Some (WorkspacePdf "prior"))) None
      = Some (c1, model1) /\
    ProfileLikelihoodCalculator model1 (GetPdf model1) = Some (c2, model2) /\
    fPdf c1 = Some (RooProdPdf "Costrained_model_with_prior"
                      "Costrained_model_with_prior"
                      (WorkspacePdf "model") (WorkspacePdf "prior")) /\
    GetPdf model2 =
      Some (RooProdPdf "Costrained_Costrained_model_with_prior_with_prior"
              "Costrained_Costrained_model_with_prior_with_prior"
              (RooProdPdf "Costrained_model_with_prior" "Costrained_model_with_prior"
                 (WorkspacePdf "model") (WorkspacePdf "prior"))
              (WorkspacePdf "prior")).
Proof.
  destruct (ProfileLikelihoodCalculator
              (mkModel (Some (WorkspacePdf "model")) (Some (WorkspacePdf "prior"))) None)
    as [[c1 model1]|] eqn:E1; [|discriminate E1].
  destruct (ProfileLikelihoodCalculator model1 (GetPdf model1))
    as [[c2 model2]|] eqn:E2;
    [|cbv in E1; injection E1 as <- <-; discriminate E2].
  destruct (second_construction_multiplies_prior_again
              (mkModel (Some (WorkspacePdf "model")) (Some (WorkspacePdf "prior")))
              model1 model2 None (GetPdf model1) c1 c2
              (WorkspacePdf "model") (WorkspacePdf "prior")
              eq_refl eq_refl E1 E2) as (H1 & _ & _ & H4 & H5 & _).
  exists c1, model1, c2, model2. split; [reflexivity|]. split; [exact E2|].
  split; [exact H1|]. rewrite H5. exact H4.
Defined.

End ConstructionFacts.

(** ** The calculator at work on the small workspace *)

Section Scenarios.
Import Demo Survival.
Local Existing Instance twoParam.

Lemma floats_differ (x y : float) : PrimFloat.Leibniz.eqb x y = false -> x <> y.
Proof.
  intros H E. apply FloatAxioms.Leibniz.eqb_spec in E. congruence.
Qed.

Lemma global_fit_cached_across_queries_witness :
  exists r1 s1 r2 s2,
    runQuery GetName calc AskInterval state0 = Some (r1, s1) /\
    runQuery GetName calc AskHypoTest s1 = Some (r2, s2) /\
    fFitResult state0 = None /\
    globalFits (calls s2) = 1 /\
    r1 <> None /\ r2 <> None /\
    fFitResult s2 = fFitResult s1 /\
    globalFits (calls s2) = globalFits (calls s1).
Proof.
  destruct (runQuery GetName calc AskInterval state0) as [[r1 s1]|] eqn:E1;
    try (cbv in E1; discriminate E1).
  destruct (runQuery GetName calc AskHypoTest s1) as [[r2 s2]|] eqn:E2.
  2:{ exfalso. cbv in E1. injection E1 as _ <-. cbv in E2. discriminate E2. }
  destruct (global_fit_cached_across_queries GetName calc AskInterval AskHypoTest
              state0 s1 s2 r1 r2 (Data 0) (Pdf 0) eq_refl eq_refl)
    as (H1 & H2 & H3 & _ & _ & H6 & H7); try assumption; try reflexivity;
    try discriminate.
  exists r1, s1, r2, s2. split; [reflexivity|]. split; [exact E2|].
  split; [reflexivity|]. repeat split; assumption.
Defined.

(** C2: the failing inputs.  With an engine whose fit hands back no result,
    [GetInterval] and [GetHypoTest] do not return at all: [DoGlobalFit]
    dereferences the null result in [fit->Print()].  With an engine whose
    conditional fit alone hands back nothing, [GetHypoTest] stops at
    [fit2->minNll()] while [mu] is still frozen at its null value. *)
Theorem fit_without_result_crashes :
  GetInterval (engine := noResult) GetName calc state0 = None /\
  GetHypoTest (engine := noResult) GetName calc state0 = None /\
  GetHypoTest (engine := noCondResult) GetName calc state0 = None /\
  (let hf := snd (freezeNull GetName [0; 1] [2] heap0) in
   isConstant (hf 0) = true /\ getVal (hf 0) = 0%float /\
   getVal (heap0 0) = 1%float).
Proof. repeat split. Qed.

(** C3, as stated, fails: on a fresh calculator the global fit moves [mu]
    from 1 to 5 before [GetHypoTest] saves it, so the value put back after
    the test is 5, not the value [mu] had when the call was made. *)
Lemma null_parameter_not_at_pre_call_value :
  exists htr s1 s',
    GetHypoTest GetName calc state0 = Some (Some htr, s') /\
    ensureGlobalFit calc state0 = Some (tt, s1) /\
    fNullParams calc = Some [2] /\
    find GetName (RemoveConstantParameters (heap s1) [0; 1]) (GetName 2) = Some 0 /\
    getVal (heap state0 0) = 1%float /\
    getVal (heap s' 0) = 5%float /\
    getVal (heap s' 0) <> getVal (heap state0 0).
Proof.
  do 3 eexists. split; [cbv; reflexivity|]. split; [cbv; reflexivity|].
  do 4 (split; [reflexivity|]). apply floats_differ. reflexivity.
Qed.

Lemma null_parameters_restored_witness :
  exists htr s1 s',
    GetHypoTest GetName calc state0 = Some (Some htr, s') /\
    NoDup (map GetName [2]) /\
    ensureGlobalFit calc state0 = Some (tt, s1) /\
    getVal (heap s' 0) = getVal (heap s1 0) /\
    isConstant (heap s' 0) = false.
Proof.
  assert (Hnd : NoDup (map GetName [2])) by (repeat constructor; intros []).
  destruct (GetHypoTest GetName calc state0) as [[[htr|] s']|] eqn:E;
    try (cbv in E; discriminate E).
  destruct (null_parameters_restored GetName calc state0 s' htr [2] E eq_refl Hnd)
    as (data & pdf & cp0 & s1 & _ & _ & Hg & He & _ & Hall).
  exists htr, s1, s'. split; [reflexivity|]. split; [exact Hnd|].
  split; [exact He|].
  injection Hg as <-. cbv in He. injection He as <-.
  destruct (Hall 2 0) as (Hv & Hk & _); [left; reflexivity|reflexivity|].
  split; assumption.
Defined.


Lemma half_value : finiteValue 0.5%float = Some (1 / 2)%R.
Proof.
  unfold finiteValue.
  assert (E : Prim2SF 0.5%float = S754_finite false 4503599627370496 (-53))
    by (vm_compute; reflexivity).
  rewrite E. cbn [SF2R]. f_equal.
  unfold powerRZ. replace (Pos.to_nat 53) with 53%nat by reflexivity.
  assert (H : (2 ^ 53 = 9007199254740992)%R) by (cbn; lra).
  rewrite H. lra.
Qed.

Lemma tabulated_value :
  exists p, finiteValue 6.3e-4%float = Some p /\ (6.2999e-4 < p < 6.3001e-4)%R.
Proof.
  unfold finiteValue.
  assert (E : Prim2SF 6.3e-4%float = S754_finite false 5810724383218509 (-63))
    by (vm_compute; reflexivity).
  rewrite E. cbn [SF2R]. eexists. split; [reflexivity|].
  unfold powerRZ. replace (Pos.to_nat 63) with 63%nat by reflexivity.
  assert (H : (2 ^ 63 = 9223372036854775808)%R) by (cbn; lra).
  rewrite H. lra.
Qed.

(** The end-to-end scenario: one parameter, unconditional NLL 10.0, and 15.2
    at the null value, with a conversion that hands back 6.3e-4 at the
    statistic. *)
Lemma p_value_is_survival_of_test_statistic_witness :
  exists htr s' p,
    GetHypoTest (engine := oneParamTabulated) GetName calc state0
      = Some (Some htr, s') /\
    finiteValue (fNullPValue htr) = Some p /\
    (6.29e-4 - 2e-6 < p < 6.31e-4 + 2e-6)%R.
Proof.
  destruct (GetHypoTest (engine := oneParamTabulated) GetName calc state0)
    as [[[htr|] s']|] eqn:E; try (cbv in E; discriminate E).
  destruct (p_value_is_survival_of_test_statistic (engine := oneParamTabulated)
              GetName calc state0 s' htr 2e-6%R E)
    as (data & pdf & nullParams & cp0 & s1 & fit & cond & _ & _ & Hn & Hg & He & Hc &
        Hcond & _ & H).
  injection Hn as <-. injection Hg as <-. cbv in He. injection He as <-.
  injection Hc as <-. cbv in Hcond. injection Hcond as <-.
  destruct H as (z & p & _ & Hp & _ & Hscen).
  { destruct statistic_value as (q0 & Hq0 & Hb).
    destruct tabulated_value as (p0 & Hp0 & Hpb).
    exists q0, p0. split; [exact Hq0|]. split; [exact Hp0|].
    pose proof (SurvivalFacts.normal_sf_bounds q0 Hb) as Hsf.
    unfold Rabs. destruct (Rcase_abs (p0 - normal_sf q0)); lra. }
  destruct (Hscen eq_refl eq_refl) as [_ Hb].
  exists htr, s', p. split; [reflexivity|]. split; [exact Hp|exact Hb].
Defined.

Lemma interval_confidence_and_best_fit_witness :
  exists iv s',
    GetInterval GetName calc state0 = Some (Some iv, s') /\
    NoDup (map GetName [0]) /\
    intervalConfidenceLevel iv = 0.95%float /\
    intervalBestPOI iv = [FitArg (mkFitPar "mu" 5%float 0.5%float)].
Proof.
  assert (Hnd : NoDup (map GetName [0])) by (repeat constructor; intros []).
  destruct (GetInterval GetName calc state0) as [[[iv|] s']|] eqn:E;
    try (cbv in E; discriminate E).
  destruct (interval_confidence_and_best_fit GetName calc state0 s' iv [0]
              E eq_refl Hnd) as (fit & Hfit & _ & Hcl & Hbest & _).
  exists iv, s'. split; [reflexivity|]. split; [exact Hnd|].
  split; [apply Hcl; reflexivity|].
  rewrite Hbest. cbv in E. injection E as _ <-. cbn in Hfit.
  injection Hfit as <-. reflexivity.
Defined.

Lemma no_free_parameter_no_conditional_fit_witness :
  exists htr s',
    GetHypoTest (engine := oneParam) GetName calc state0 = Some (Some htr, s') /\
    condFits (calls s') = 0 /\
    fNullPValue htr = pValue (engine := oneParam) 15.2%float 10%float.
Proof.
  destruct (GetHypoTest (engine := oneParam) GetName calc state0)
    as [[[htr|] s']|] eqn:E; try (cbv in E; discriminate E).
  destruct (no_free_parameter_no_conditional_fit (engine := oneParam)
              GetName calc state0 s' htr E)
    as (data & pdf & nullParams & cp0 & s1 & fit & _ & _ & Hn & Hg & He & Hc & H).
  exists htr, s'. split; [reflexivity|].
  injection Hn as <-. injection Hg as <-. cbv in He. injection He as <-.
  injection Hc as <-.
  destruct H as (H1 & _ & H3).
  { intros a [<-|[]]. reflexivity. }
  split; [exact H1|exact H3].
Defined.

Lemma interval_overwrites_poi_witness :
  exists iv s',
    GetInterval GetName calc state0 = Some (Some iv, s') /\
    getVal (heap state0 0) = 1%float /\
    getVal (heap s' 0) = 5%float /\ getError (heap s' 0) = 0.5%float.
Proof.
  destruct (GetInterval GetName calc state0) as [[[iv|] s']|] eqn:E;
    try (cbv in E; discriminate E).
  exists iv, s'. split; [reflexivity|]. split; [reflexivity|].
  assert (Hnd : NoDup (map GetName [0])) by (repeat constructor; intros []).
  assert (Hfit : fFitResult s' = Some (mkFit 10%float muHat)).
  { cbv in E. injection E as _ <-. reflexivity. }
  assert (Hndf : NoDup (map fitName (floatParsFinal (mkFit 10%float muHat)))).
  { repeat constructor; cbn; intuition discriminate. }
  destruct (interval_overwrites_poi GetName calc state0 s' iv [0]
              (mkFit 10%float muHat) E eq_refl Hnd Hfit Hndf)
    as (seeded & _ & Hall).
  apply (Hall 0 (mkFitPar "mu" 5%float 0.5%float)).
  - left; reflexivity.
  - left; reflexivity.
  - reflexivity.
  - reflexivity.
Defined.

(** C10, as stated, fails: two infinite NLL values compare as equal, yet
    their difference is a NaN, [std::max] hands the NaN on, and the test
    statistic is a NaN rather than zero; the p-value is whatever
    [SignificanceToPValue] makes of a NaN. *)
Lemma equal_infinite_nll_gives_nan :
  PrimFloat.leb infinity infinity = true /\
  deltaNLL infinity infinity = nan /\
  testStatistic infinity infinity = nan /\
  testStatistic infinity infinity <> 0%float /\
  testStatistic infinity infinity <> (-0)%float /\
  finiteValue (testStatistic infinity infinity) = None /\
  forall engine : FittingEngine,
    pValue infinity infinity = SignificanceToPValue nan /\
    (PrimFloat.is_nan (SignificanceToPValue nan) = true ->
     pValue infinity infinity <> 0.5%float).
Proof.
  do 3 (split; [reflexivity|]).
  do 2 (split; [apply floats_differ; reflexivity|]).
  split; [reflexivity|]. intros engine. split; [reflexivity|].
  intros Hnan Heq. change (pValue infinity infinity) with (SignificanceToPValue nan) in Heq.
  rewrite Heq in Hnan. discriminate Hnan.
Qed.

Lemma p_value_at_zero_statistic_witness :
  exists htr s' p,
    GetHypoTest (engine := flatTabulated) GetName calc state0
      = Some (Some htr, s') /\
    fNullPValue htr = 0.5%float /\
    finiteValue (fNullPValue htr) = Some p /\ p = (1 / 2)%R.
Proof.
  destruct (GetHypoTest (engine := flatTabulated) GetName calc state0)
    as [[[htr|] s']|] eqn:E; try (cbv in E; discriminate E).
  destruct (p_value_at_zero_statistic (engine := flatTabulated)
              GetName calc state0 s' htr 0%R E)
    as (data & pdf & nullParams & cp0 & s1 & fit & cond & _ & _ & Hn & Hg & He & Hc &
        Hcond & H).
  injection Hn as <-. injection Hg as <-. cbv in He. injection He as <-.
  injection Hc as <-. cbv in Hcond. injection Hcond as <-.
  destruct H as (_ & _ & _ & Hpv & _ & Hsurv).
  { right. split; reflexivity. }
  destruct Hsurv as (p & Hp & _ & Hexact).
  { exists 0%R, (1 / 2)%R. split; [reflexivity|]. split; [exact half_value|].
    rewrite SurvivalFacts.normal_sf_0. unfold Rabs.
    destruct (Rcase_abs (1 / 2 - 1 / 2)); lra. }
  exists htr, s', p. split; [reflexivity|]. split; [exact Hpv|].
  split; [exact Hp|apply Hexact; reflexivity].
Defined.

End Scenarios.

(** ** More runs on the small workspace *)

Section MoreScenarios.
Import Demo Survival.
Local Existing Instance twoParam.

Lemma reset_forces_new_global_fit_witness :
  exists r1 s1 s2 r2 s3,
    runQuery GetName calc AskInterval state0 = Some (r1, s1) /\
    DoReset s1 = Some (tt, s2) /\
    runQuery GetName calc AskHypoTest s2 = Some (r2, s3) /\
    fFitResult s2 = None /\
    globalFits (calls s3) = 2.
Proof.
  destruct (runQuery GetName calc AskInterval state0) as [[[r1|] s1]|] eqn:E1;
    try (cbv in E1; discriminate E1).
  destruct (runQuery GetName calc AskHypoTest (mkState None (heap s1) (calls s1)))
    as [[r2 s3]|] eqn:E2.
  2:{ exfalso. cbv in E1. injection E1 as _ <-. cbv in E2. discriminate E2. }
  assert (Hr2 : r2 <> None).
  { cbv in E1. injection E1 as _ <-. cbv in E2. injection E2 as <- _. discriminate. }
  destruct (reset_forces_new_global_fit GetName calc AskInterval AskHypoTest
              state0 s1 _ s3 _ r2 eq_refl E1 eq_refl E2) as (_ & _ & H3 & _ & H5).
  exists (Some r1), s1, (mkState None (heap s1) (calls s1)), r2, s3.
  split; [reflexivity|]. split; [reflexivity|]. split; [exact E2|].
  split; [exact H3|]. apply H5; [discriminate|exact Hr2].
Defined.

Lemma DoGlobalFit_replaces_cache_witness :
  exists s',
    DoGlobalFit calc stateCached = Some (tt, s') /\
    fFitResult stateCached = Some (mkFit 10%float [mkFitPar "mu" 5%float 0.5%float]) /\
    fFitResult s' = Some (mkFit 10%float muHat) /\
    globalFits (calls s') = 1.
Proof.
  destruct (DoGlobalFit calc stateCached) as [[[] s']|] eqn:E;
    try (cbv in E; discriminate E).
  pose proof (DoGlobalFit_replaces_cache calc _ _ E) as H.
  exists s'. split; [reflexivity|]. split; [reflexivity|].
  cbv in E. injection E as <-. cbn [fFitResult] in H.
  destruct H as (data & pdf & cp0 & _ & _ & _ & _ & _ & Hfits & _).
  split; [reflexivity|exact Hfits].
Defined.

Lemma free_parameter_one_conditional_fit_witness :
  exists htr s',
    GetHypoTest GetName calc state0 = Some (Some htr, s') /\
    condFits (calls s') = 1 /\
    fNullPValue htr = pValue 15.2%float 10%float.
Proof.
  destruct (GetHypoTest GetName calc state0) as [[[htr|] s']|] eqn:E;
    try (cbv in E; discriminate E).
  destruct (free_parameter_one_conditional_fit GetName calc state0 s' htr E)
    as (data & pdf & nullParams & cp0 & s1 & fit & _ & _ & Hn & Hg & He & Hc & H).
  exists htr, s'. split; [reflexivity|].
  injection Hn as <-. injection Hg as <-. cbv in He. injection He as <-.
  injection Hc as <-.
  destruct (H 1) as (fit2 & h3 & Hf & _ & H1 & H2 & _).
  { right; left; reflexivity. }
  { reflexivity. }
  cbv in Hf. injection Hf as <- _.
  split; [exact H1|exact H2].
Defined.

Lemma conditional_step_sees_null_values_witness :
  exists htr s' s1,
    GetHypoTest GetName calc state0 = Some (Some htr, s') /\
    NoDup (map GetName [2]) /\
    ensureGlobalFit calc state0 = Some (tt, s1) /\
    let cp := RemoveConstantParameters (heap s1) [0; 1] in
    let hf := snd (freezeNull GetName cp [2] (heap s1)) in
    getVal (heap s1 0) = 5%float /\
    isConstant (hf 0) = true /\ getVal (hf 0) = 0%float /\ hf 1 = heap s1 1.
Proof.
  assert (Hnd : NoDup (map GetName [2])) by (repeat constructor; intros []).
  destruct (GetHypoTest GetName calc state0) as [[[htr|] s']|] eqn:E;
    try (cbv in E; discriminate E).
  destruct (conditional_step_sees_null_values GetName calc state0 s' htr [2]
              E eq_refl Hnd)
    as (data & pdf & cp0 & s1 & fit & cond & _ & _ & Hg & He & _ & _ & _ & Hall & Hrest).
  exists htr, s', s1. split; [reflexivity|]. split; [exact Hnd|].
  split; [exact He|]. cbv zeta.
  injection Hg as <-. cbv in He. injection He as <-.
  split; [reflexivity|].
  destruct (Hall 2 0) as (Hk & Hv & _); [left; reflexivity|reflexivity|].
  split; [exact Hk|]. split; [exact Hv|].
  apply Hrest. intros p [<-|[]]. discriminate.
Defined.

Lemma test_without_fit_restores_store_witness :
  exists htr s',
    GetHypoTest (engine := oneParam) GetName calc stateCached = Some (Some htr, s') /\
    NoDup (map GetName [2]) /\
    condFits (calls s') = 0 /\
    forall a, heap s' a = heap0 a.
Proof.
  assert (Hnd : NoDup (map GetName [2])) by (repeat constructor; intros []).
  destruct (GetHypoTest (engine := oneParam) GetName calc stateCached)
    as [[[htr|] s']|] eqn:E; try (cbv in E; discriminate E).
  assert (Hcount : condFits (calls s') = 0).
  { cbv in E. injection E as _ <-. reflexivity. }
  exists htr, s'. split; [reflexivity|]. split; [exact Hnd|]. split; [exact Hcount|].
  apply (test_without_fit_restores_store (engine := oneParam) GetName calc
           stateCached s' htr [2] E eq_refl Hnd).
  - discriminate.
  - exact Hcount.
Defined.

Lemma interval_seeds_only_fitted_poi_witness :
  exists iv s' base seeded,
    GetInterval GetName calc state0 = Some (Some iv, s') /\
    heap s' = snd (profileGetVal (intervalProfile iv) seeded) /\
    seeded 1 = base 1 /\ seeded 2 = base 2.
Proof.
  destruct (GetInterval GetName calc state0) as [[[iv|] s']|] eqn:E;
    try (cbv in E; discriminate E).
  assert (Hfit : fFitResult s' = Some (mkFit 10%float muHat)).
  { cbv in E. injection E as _ <-. reflexivity. }
  destruct (interval_seeds_only_fitted_poi GetName calc state0 s' iv [0]
              (mkFit 10%float muHat) E eq_refl Hfit)
    as (base & seeded & _ & _ & Hheap & Hframe & _).
  exists iv, s', base, seeded. split; [reflexivity|]. split; [exact Hheap|].
  split; apply Hframe; left; intros [H|[]]; discriminate H.
Defined.

Lemma interval_engine_calls_witness :
  exists iv s',
    GetInterval GetName calc state0 = Some (Some iv, s') /\
    calls s' = [CallCreateNLL (Pdf 0) (Data 0) [0; 1]; CallCreateProfile [0];
                CallFitTo (Pdf 0) (Data 0) [0; 1] globalFitOptions;
                CallProfileGetVal] /\
    condFits (calls s') = 0.
Proof.
  destruct (GetInterval GetName calc state0) as [[[iv|] s']|] eqn:E;
    try (cbv in E; discriminate E).
  destruct (interval_engine_calls GetName calc state0 s' iv E)
    as (data & pdf & poi & cp0 & Hd & Hp & Hpoi & Hg & _ & Hcalls & Hcount).
  exists iv, s'. split; [reflexivity|].
  injection Hd as <-. injection Hp as <-. injection Hpoi as <-. injection Hg as <-.
  split; [exact Hcalls|exact Hcount].
Defined.

Lemma repeated_interval_same_best_fit_witness :
  exists iv1 s1 iv2 s2,
    GetInterval GetName calc state0 = Some (Some iv1, s1) /\
    GetInterval GetName calc s1 = Some (Some iv2, s2) /\
    intervalBestPOI iv2 = intervalBestPOI iv1 /\
    globalFits (calls s2) = globalFits (calls s1).
Proof.
  destruct (GetInterval GetName calc state0) as [[[iv1|] s1]|] eqn:E1;
    try (cbv in E1; discriminate E1).
  destruct (GetInterval GetName calc s1) as [[r2 s2]|] eqn:E2.
  2:{ exfalso. cbv in E1. injection E1 as _ <-. cbv in E2. discriminate E2. }
  destruct (repeated_interval_same_best_fit GetName calc state0 s1 s2 iv1 r2 E1 E2)
    as (iv2 & -> & _ & _ & Hbest & _ & Hfits).
  exists iv1, s1, iv2, s2. split; [reflexivity|]. split; [exact E2|].
  split; [exact Hbest|exact Hfits].
Defined.

Lemma unmatched_null_parameters_are_skipped_witness :
  exists htr s' s1,
    GetHypoTest GetName calcOtherNull state0 = Some (Some htr, s') /\
    ensureGlobalFit calcOtherNull state0 = Some (tt, s1) /\
    fNullPValue htr = pValue 15.2%float 10%float /\
    heap s' =
      snd (fitTo (Pdf 0) (Data 0) (RemoveConstantParameters (heap s1) [0; 1])
             condFitOptions (heap s1)).
Proof.
  destruct (GetHypoTest GetName calcOtherNull state0) as [[[htr|] s']|] eqn:E;
    try (cbv in E; discriminate E).
  destruct (unmatched_null_parameters_are_skipped GetName calcOtherNull state0 s' htr
              [3] E eq_refl)
    as (data & pdf & cp0 & s1 & fit & cond & Hd & Hp & Hg & He & Hc & H).
  exists htr, s', s1. split; [reflexivity|]. split; [exact He|].
  injection Hd as <-. injection Hp as <-. injection Hg as <-.
  cbv in He. injection He as <-. injection Hc as <-.
  destruct H as (Hcond & Hpv & Hheap).
  { intros p [<-|[]]. reflexivity. }
  cbv in Hcond. injection Hcond as <-.
  split; [exact Hpv|exact Hheap].
Defined.

Lemma empty_poi_set_interval_witness :
  exists iv s',
    GetInterval GetName calcEmptyPOI state0 = Some (Some iv, s') /\
    intervalBestPOI iv = [] /\ fFitResult s' <> None.
Proof.
  destruct (GetInterval GetName calcEmptyPOI state0) as [[[iv|] s']|] eqn:E;
    try (cbv in E; discriminate E).
  destruct (empty_poi_set_interval GetName calcEmptyPOI state0 s' iv E eq_refl)
    as (Hbest & _ & Hfit & _).
  exists iv, s'. split; [reflexivity|]. split; [exact Hbest|exact Hfit].
Defined.

Lemma no_parameter_set_splits_the_queries_witness :
  GetHypoTest (engine := noParameters) GetName calc state0 = Some (None, state0) /\
  GetInterval (engine := noParameters) GetName calc state0 = None.
Proof.
  destruct (no_parameter_set_splits_the_queries (engine := noParameters) GetName calc
              state0 (Data 0) (Pdf 0) eq_refl eq_refl eq_refl eq_refl) as [H1 H2].
  split; [apply H1|apply H2]; discriminate.
Defined.

End MoreScenarios.
